(** * boringstreamer: the broadcast pipeline, embedded and verified

    A shallow embedding of the Go program (package main of
    fgergo/boringstreamer): the subscriber registry of [mux], the fan-out
    loop of [mux.start], the per-connection handler
    [streamHandler.ServeHTTP], the pacing of the decode loop, the file
    discovery and shuffle loops, and [stripID3Header] of the earlier
    revision of the file.

    Conventions.
    - Go's [int] and [time.Duration] are 64-bit two's complement: they are
      integers of [Z] with the wrap-around written at every operation.
    - A channel is its identity (a [positive]); a goroutine is the sequence
      of events it performs, the values it receives being inputs.
    - A [nil] map entry, a failed bounds check or a [close] of [nil] is a
      run-time panic: the embedded function returns [None]. *)

From stdpp Require Import gmap list strings sorting.
From Stdlib Require Import ZArith Lia Ascii.
From Stdlib.Strings Require Import Byte.

Local Open Scope Z_scope.

#[local] Set Warnings "-register-all".

(* ===================================================================== *)
(** * Machine integers *)
(* ===================================================================== *)

Definition int_min : Z := - 2 ^ 63.
Definition int_max : Z := 2 ^ 63 - 1.

(** Two's complement reduction to 64 bits ([int], [time.Duration]). *)
Definition wrap_int (z : Z) : Z := (z + 2 ^ 63) mod 2 ^ 64 - 2 ^ 63.

(** Two's complement reduction to 32 bits ([int32]). *)
Definition wrap_int32 (z : Z) : Z := (z + 2 ^ 31) mod 2 ^ 32 - 2 ^ 31.

(* ===================================================================== *)
(** * The registry: [mux], [subscribe] *)
(* ===================================================================== *)

(** A [chan streamFrame] or [chan broadcastResult] is a [positive], its
    identity; a [streamFrame] ([[]byte]) is a [list byte]. *)

(** [type mux struct { sync.Mutex; clients map[int]chan streamFrame;
    result chan broadcastResult }]. The mutex makes every critical section
    atomic; it has no state of its own here. *)
Record mux := Mux {
  clients : gmap Z positive;
  result : positive
}.

(** How the search loop of [subscribe] ends. *)
Inductive scan_outcome :=
| ScanFree (qid : Z)   (* the loop condition [ok] became false at [qid] *)
| ScanFull             (* [return -1, nil] *)
| ScanFuel.            (* the iteration budget of the model ran out *)

(** The loop of [subscribe], entered with [qid] and [ok] set from
    [m.clients[qid]]:
<<
    for ; ok; _, ok = m.clients[qid] {
        if qid >= *maxConnections-1 { m.Unlock(); return -1, nil }
        qid++
    }
>>
    [fuel] bounds the number of times the body may run. *)
Fixpoint scan_qid (cl : gmap Z positive) (maxConnections : Z)
    (fuel : nat) (qid : Z) : scan_outcome :=
  match cl !! qid with
  | None => ScanFree qid
  | Some _ =>
      if bool_decide (wrap_int (maxConnections - 1) ≤ qid) then ScanFull
      else match fuel with
           | O => ScanFuel
           | S fuel' => scan_qid cl maxConnections fuel' (wrap_int (qid + 1))
           end
  end.

(** [func (m *mux) subscribe(ch chan streamFrame) (int, chan broadcastResult)].
    The result is the registry after the call and the returned pair; the
    failure sentinel is [(-1, nil)], with [nil] as [None]. The body of the
    loop runs once per occupied id it passes, so [size (clients m)] runs are
    a sufficient budget ([subscribe_total]); [None] is the exhausted
    budget. *)
Definition subscribe (maxConnections : Z) (m : mux) (ch : positive)
    : option (mux * (Z * option positive)) :=
  match scan_qid (clients m) maxConnections (size (clients m)) 0 with
  | ScanFree qid =>
      Some (Mux (<[qid := ch]> (clients m)) (result m), (qid, Some (result m)))
  | ScanFull => Some (m, (-1, None))
  | ScanFuel => None
  end.

(** The eviction of the fan-out loop, under the lock:
    [close(m.clients[br.qid]); delete(m.clients, br.qid)]. A missing entry
    reads as the [nil] channel, and closing [nil] panics. The closed channel
    is returned with the new registry. *)
Definition evict (m : mux) (qid : Z) : option (mux * positive) :=
  match clients m !! qid with
  | None => None
  | Some ch => Some (Mux (delete qid (clients m)) (result m), ch)
  end.

(** [new(mux).start(path)]: [m.clients = make(map[int]chan streamFrame)]. *)
Definition start_mux (res : positive) : mux := Mux ∅ res.

(** Operations on the registry, as the rest of the program issues them. *)
Inductive reg_op :=
| OpSubscribe (ch : positive)
| OpEvict (qid : Z).

Definition reg_step (maxConnections : Z) (m : mux) (op : reg_op) : option mux :=
  match op with
  | OpSubscribe ch => fst <$> subscribe maxConnections m ch
  | OpEvict qid => fst <$> evict m qid
  end.

Fixpoint reg_run (maxConnections : Z) (m : mux) (ops : list reg_op) : option mux :=
  match ops with
  | [] => Some m
  | op :: ops' =>
      match reg_step maxConnections m op with
      | None => None
      | Some m' => reg_run maxConnections m' ops'
      end
  end.

(** The ids the search of [subscribe] can reach: [0 .. id_bound]. *)
Definition id_bound (maxConnections : Z) : Z :=
  Z.max 0 (wrap_int (maxConnections - 1)).

(* ===================================================================== *)
(** * Byte slices and [stripID3Header] (earlier revision of the file) *)
(* ===================================================================== *)

#[global] Instance byte_eq_decision : EqDecision byte := Byte.byte_eq_dec.

(** An [error] value is its message. *)
Inductive error := Err (msg : string).

(** A Go [[]byte]: the [len] bytes of the slice, then the bytes of the
    backing array up to the capacity. *)
Record slice := Slice {
  elems : list byte;
  spare : list byte
}.

Definition slice_len (s : slice) : nat := length (elems s).
Definition slice_cap (s : slice) : nat := (length (elems s) + length (spare s))%nat.

(** [s[:high]]. A slice expression on a slice is bounded by the capacity,
    not by the length (Go specification, Slice expressions): it panics only
    for [high > cap(s)]. *)
Definition slice_to (s : slice) (high : Z) : option slice :=
  if bool_decide (0 ≤ high ≤ Z.of_nat (slice_cap s)) then
    Some (Slice (take (Z.to_nat high) (elems s ++ spare s))
                (drop (Z.to_nat high) (elems s ++ spare s)))
  else None.

(** [s[low:]], that is [s[low:len(s)]]: panics for [low > len(s)]. *)
Definition slice_from (s : slice) (low : Z) : option slice :=
  if bool_decide (0 ≤ low ≤ Z.of_nat (slice_len s)) then
    Some (Slice (drop (Z.to_nat low) (elems s)) (spare s))
  else None.

(** [s[i]]: an index expression is bounded by the length. *)
Definition slice_index (s : slice) (i : nat) : option byte := elems s !! i.

(** The marker, [string(buf[:3]) != ID3] compares these bytes. *)
Definition ID3 : list byte := [x49; x44; x33].

(** [int32(b)] of a byte. *)
Definition int32_of_byte (b : byte) : Z := Z.of_N (Byte.to_N b).

(** [x << n] on [int32]. *)
Definition shl32 (x : Z) (n : Z) : Z := wrap_int32 (Z.shiftl x n).

(** Lines 146-147:
<<
    id3size := int32(buf[6])<<21 | int32(buf[7])<<14 | int32(buf[8])<<7 | int32(buf[9])
    id3size += 10
>> *)
Definition id3size (b6 b7 b8 b9 : byte) : Z :=
  wrap_int32
    (Z.lor (Z.lor (Z.lor (shl32 (int32_of_byte b6) 21)
                         (shl32 (int32_of_byte b7) 14))
                  (shl32 (int32_of_byte b8) 7))
           (int32_of_byte b9)
     + 10).

(** [func stripID3Header(r io.Reader) io.Reader]. The arguments are what
    [ioutil.ReadAll(r)] returned; the result is the content of the returned
    reader, [None] when an index or slice expression panics. *)
Definition stripID3Header (buf : slice) (err : option error) : option (list byte) :=
  match err with
  | Some _ => Some []
  | None =>
      hd ← slice_to buf 3;
      if bool_decide (elems hd ≠ ID3) then Some (elems buf)
      else
        b6 ← slice_index buf 6;
        b7 ← slice_index buf 7;
        b8 ← slice_index buf 8;
        b9 ← slice_index buf 9;
        tl ← slice_from buf (id3size b6 b7 b8 b9);
        Some (elems tl)
  end.

(** The size field as the tag format defines it: a 28-bit syncsafe integer,
    four base-128 digits, each byte contributing its low 7 bits. *)
Definition syncsafe (b6 b7 b8 b9 : byte) : Z :=
  (((int32_of_byte b6 mod 128) * 128 + int32_of_byte b7 mod 128) * 128
   + int32_of_byte b8 mod 128) * 128 + int32_of_byte b9 mod 128.

(** A syncsafe byte has its high bit clear. *)
Definition syncsafe_byte (b : byte) : Prop := int32_of_byte b < 128.

(** A buffer as [ioutil.ReadAll] returns it for a file of content [data]
    shorter than 512 bytes: the initial capacity is [bytes.MinRead] = 512
    and the unused part of the backing array is zero. *)
Definition read_buffer (data : list byte) : slice :=
  Slice data (replicate (512 - length data) x00).

(** A 10-byte file: the marker, version 3.0, no flags, and a size field
    declaring a tag body of 1 byte that the file does not have. *)
Definition truncated_tag : list byte :=
  [x49; x44; x33; x03; x00; x00; x00; x00; x00; x01].

(* ===================================================================== *)
(** * The frame pipeline: decoding and pacing *)
(* ===================================================================== *)

(** [time.Second], in nanoseconds; a [time.Duration] is an [int64]. *)
Definition Second : Z := 1000000000.

(** One pass of the inner loop of the decoding goroutine, before the
    end of the stream ([io.EOF] ends the list). *)
Inductive decode_unit :=
| DecodeErr        (* [d.Decode(&f)] failed: [continue] *)
| ReaderErr        (* [ioutil.ReadAll(f.Reader())] failed: [continue] *)
| Decoded (buf : list byte) (duration : Z) (cost : Z).
                   (* the frame was sent on [nextFrame]; [duration] is
                      [f.Duration()] and [cost] is [time.Now().Sub(t0)] *)

(** What the goroutine does that others can see. *)
Inductive pipe_event :=
| PFrame (buf : list byte)    (* [nextFrame <- buf] *)
| PSleep (d : Z).             (* [time.Sleep(d)] *)

(** Lines 688-693:
<<
    towait := f.Duration() - time.Now().Sub(t0)
    cumwait += towait // towait can be negative -> cumwait
    if cumwait > 1*time.Second {
        time.Sleep(cumwait)
        cumwait = 0
    }
>> *)
Definition pace (cumwait duration cost : Z) : Z * list pipe_event :=
  let towait := wrap_int (duration - cost) in
  let cumwait := wrap_int (cumwait + towait) in
  if bool_decide (1 * Second < cumwait) then (0, [PSleep cumwait])
  else (cumwait, []).

(** The inner [for] loop over one stream. *)
Fixpoint decode_stream (cumwait : Z) (units : list decode_unit)
    : Z * list pipe_event :=
  match units with
  | [] => (cumwait, [])
  | DecodeErr :: rest => decode_stream cumwait rest
  | ReaderErr :: rest => decode_stream cumwait rest
  | Decoded buf duration cost :: rest =>
      let '(cw, ev) := pace cumwait duration cost in
      let '(cw', evs) := decode_stream cw rest in
      (cw', PFrame buf :: ev ++ evs)
  end.

(** The outer loop over the streams received on [nextStream]; [cumwait] is
    declared outside of it and lives across streams. *)
Fixpoint decode_streams (cumwait : Z) (streams : list (list decode_unit))
    : Z * list pipe_event :=
  match streams with
  | [] => (cumwait, [])
  | units :: rest =>
      let '(cw, ev) := decode_stream cumwait units in
      let '(cw', evs) := decode_streams cw rest in
      (cw', ev ++ evs)
  end.

(** [var cumwait time.Duration]: the goroutine starts from zero. *)
Definition decode_goroutine (streams : list (list decode_unit)) : Z * list pipe_event :=
  decode_streams 0 streams.

(** The frames a list of streams yields, in order. *)
Definition frames_of (streams : list (list decode_unit)) : list (list byte * Z * Z) :=
  concat (map (λ units, omap (λ u, match u with
                                   | Decoded buf d c => Some (buf, d, c)
                                   | _ => None
                                   end) units) streams).

(** The pacing as the specification words it, on unbounded integers: the
    slack of each frame is added to an accumulator; above one second the
    pipeline sleeps for the accumulated amount and starts again from zero. *)
Fixpoint pacing_spec (acc : Z) (frames : list (list byte * Z * Z))
    : Z * list pipe_event :=
  match frames with
  | [] => (acc, [])
  | (buf, duration, cost) :: rest =>
      let slack := duration - cost in
      let acc := acc + slack in
      if bool_decide (acc > Second) then
        let '(acc', evs) := pacing_spec 0 rest in
        (acc', PFrame buf :: PSleep acc :: evs)
      else
        let '(acc', evs) := pacing_spec acc rest in
        (acc', PFrame buf :: evs)
  end.

(** The durations stay within [int64]: at every frame the slack and the
    accumulator with the slack added are representable. *)
Fixpoint durations_in_range (acc : Z) (frames : list (list byte * Z * Z)) : Prop :=
  match frames with
  | [] => True
  | (_, duration, cost) :: rest =>
      int_min ≤ duration - cost ≤ int_max ∧
      int_min ≤ acc + (duration - cost) ≤ int_max ∧
      durations_in_range
        (if bool_decide (acc + (duration - cost) > Second) then 0
         else acc + (duration - cost)) rest
  end.

(** The durations slept for, and their sum. *)
Definition sleeps (evs : list pipe_event) : list Z :=
  omap (λ e, match e with PSleep d => Some d | _ => None end) evs.

Definition sum_list (l : list Z) : Z := foldr Z.add 0 l.

Definition total_slack (frames : list (list byte * Z * Z)) : Z :=
  sum_list (map (λ f, snd (fst f) - snd f) frames).

(* ===================================================================== *)
(** * Discovery and shuffle *)
(* ===================================================================== *)

(** The file tree at scan time, as [os.Lstat] and the directory reads of
    [filepath.Walk] see it. The entries of a directory are in the order
    [Walk] visits them (lexical). *)
Inductive fsnode :=
| FsFile (name : string) (regular : bool)
      (* not a directory; [regular] is [info.Mode().IsRegular()]
         (false for a symbolic link, a device, a pipe ...) *)
| FsDir (name : string) (readErr : option error) (entries : list fsnode)
      (* a directory; [readErr] is the error of reading its names *)
| FsNoStat (name : string) (err : error).
      (* [os.Lstat] fails on this name *)

Definition fs_name (n : fsnode) : string :=
  match n with
  | FsFile name _ => name
  | FsDir name _ _ => name
  | FsNoStat name _ => name
  end.

(** The part of [os.FileInfo] the scan reads. *)
Record FileInfo := MkFileInfo {
  fi_Name : string;
  fi_IsRegular : bool;
  fi_IsDir : bool
}.

(** The arguments [info] and [err] of a [filepath.WalkFunc]: [info] is
    always there when [err] is [nil]. *)
Inductive visit :=
| VisitOk (info : FileInfo)
| VisitErr (info : option FileInfo) (err : error).

Section Walk.
(** [filepath.Join], of the standard library. *)
Variable Join : string → string → string.

Context {St : Type}.
(** The callback: the state it changes, and the error it returns. *)
Variable walkFn : string → visit → St → St * option error.

(** [filepath.Walk], of the standard library, on a callback that never
    returns [filepath.SkipDir]: every name is visited in order, the names
    of a directory after the directory itself; a directory whose names
    cannot be read is reported to the callback and not entered; the first
    error the callback returns ends the walk. *)
Fixpoint walk (path : string) (n : fsnode) (s : St) : St * option error :=
  match n with
  | FsFile name regular => walkFn path (VisitOk (MkFileInfo name regular false)) s
  | FsNoStat name err => walkFn path (VisitErr None err) s
  | FsDir name readErr entries =>
      let info := MkFileInfo name false true in
      match readErr with
      | Some err => walkFn path (VisitErr (Some info) err) s
      | None =>
          let '(s1, err1) := walkFn path (VisitOk info) s in
          match err1 with
          | Some _ => (s1, err1)
          | None =>
              (fix walk_entries (es : list fsnode) (s : St) : St * option error :=
                 match es with
                 | [] => (s, None)
                 | e :: es' =>
                     let '(s', err) := walk (Join path (fs_name e)) e s in
                     match err with
                     | Some _ => (s', err)
                     | None => walk_entries es' s'
                     end
                 end) entries s1
          end
      end
  end.
End Walk.

(** [strings.ToLower], on the ASCII letters. The letters of the suffix
    tested below are ASCII, and no other letter has one of them as its
    lower case, so the other mappings of [ToLower] do not matter here. *)
Definition lower_ascii (c : ascii) : ascii :=
  let n := nat_of_ascii c in
  if (65 <=? n)%nat && (n <=? 90)%nat then ascii_of_nat (n + 32) else c.

Fixpoint ToLower (s : string) : string :=
  match s with
  | EmptyString => EmptyString
  | String c s' => String (lower_ascii c) (ToLower s')
  end.

(** [strings.HasSuffix]. *)
Definition HasSuffix (s suffix : string) : bool :=
  bool_decide (String.list_ascii_of_string suffix `suffix_of`
               String.list_ascii_of_string s).

(** The callback of the scan, lines 556-578; the state is the list of the
    paths sent on [files] so far.
<<
    if err != nil { return nil }
    if !info.Mode().IsRegular() { return nil }
    probably := strings.HasSuffix(strings.ToLower(info.Name()), ".mp3")
    if !info.IsDir() && !probably { return nil }
    files <- wpath
    return nil
>>
    (The lines before these only print a notice.) *)
Definition scan_walkFn (wpath : string) (v : visit) (files : list string)
    : list string * option error :=
  match v with
  | VisitErr _ _ => (files, None)
  | VisitOk info =>
      if negb (fi_IsRegular info) then (files, None)
      else
        let probably := HasSuffix (ToLower (fi_Name info)) ".mp3" in
        if negb (fi_IsDir info) && negb probably then (files, None)
        else (files ++ [wpath], None)
  end.

(** One pass of the scanning goroutine: the paths sent on [files] before
    [close(files)]. *)
Definition scan_files (Join : string → string → string) (path : string)
    (root : fsnode) : list string :=
  fst (walk Join scan_walkFn path root []).

(** The loop [for f := range files] of the shuffling goroutine, lines
    596-614. For each file, [timer] tells whether the channel of
    [time.After(100 * time.Millisecond)] was ready when the [select] ran
    (else the [default] case runs), and [rnd] gives the numbers that
    [rand.Intn(len(shuffled))] is computed from, which are below
    [len(shuffled)]. The result is the reservoir and the paths already sent
    on [nextFile]; [None] is an index out of range. *)
Fixpoint shuffle_loop (files : list string) (timer : list bool) (rnd : list nat)
    (shuffled sent : list string) : option (list string * list string) :=
  match files with
  | [] => Some (shuffled, sent)
  | f :: files' =>
      if hd false timer then
        shuffle_loop files' (tl timer) rnd shuffled (sent ++ [f])
      else
        match shuffled with
        | [] => shuffle_loop files' (tl timer) rnd [f] sent
        | _ :: _ =>
            let i := (hd 0%nat rnd mod length shuffled)%nat in
            match shuffled !! i with
            | None => None
            | Some x =>
                shuffle_loop files' (tl timer) (tl rnd)
                             (<[i := f]> (shuffled ++ [x])) sent
            end
        end
  end.

(** One scan and the queueing of its files: everything sent on [nextFile],
    those sent at once and then the reservoir in its order. *)
Definition discover_once (Join : string → string → string) (path : string)
    (root : fsnode) (timer : list bool) (rnd : list nat) : option (list string) :=
  '(shuffled, sent) ← shuffle_loop (scan_files Join path root) timer rnd [] [];
  Some (sent ++ shuffled).

(** The regular files under the root whose lower-cased name ends in
    [.mp3], with their paths: the files that can be seen, that is outside
    of directories that cannot be read. *)
Fixpoint mp3_files (Join : string → string → string) (path : string)
    (n : fsnode) : list string :=
  match n with
  | FsFile name regular =>
      if regular && HasSuffix (ToLower name) ".mp3" then [path] else []
  | FsNoStat _ _ => []
  | FsDir _ (Some _) _ => []
  | FsDir _ None entries =>
      (fix mp3_entries (es : list fsnode) : list string :=
         match es with
         | [] => []
         | e :: es' => mp3_files Join (Join path (fs_name e)) e ++ mp3_entries es'
         end) entries
  end.

(* ===================================================================== *)
(** * The fan-out goroutine and the registry it shares *)
(* ===================================================================== *)

(** [type broadcastResult struct { qid int; err error }] *)
Record broadcastResult := BroadcastResult {
  qid : Z;
  err : option error
}.

(** What happens to the registry and the channels, in order. *)
Inductive bcast_event :=
| BSubscribed (q : Z) (ch : positive)   (* [subscribe(ch)] returned [q] *)
| BRefused (ch : positive)              (* [subscribe(ch)] returned [-1, nil] *)
| BSend (ch : positive) (f : list byte) (* [ch <- f] *)
| BRecv (br : broadcastResult)          (* [br := <-m.result] *)
| BClose (ch : positive)                (* [close(m.clients[br.qid])] *)
| BDelete (q : Z)                       (* [delete(m.clients, br.qid)] *)
| BRoundEnd.                            (* the [range] loop is over *)

(** Where the fan-out goroutine stands when it does not hold the lock. The
    list is what the [range] over [m.clients] has yet to visit. *)
Inductive bcast_pc :=
| AtNextFrame                                  (* in [f := <-nextFrame] *)
| AtResult (f : list byte) (order : list Z)    (* [ch <- f] done, in [<-m.result] *)
| AtLoopHead (f : list byte) (order : list Z). (* report handled, before [m.Lock()] *)

(** The registry, the channels made so far, and the fan-out goroutine. *)
Record system := System {
  sys_mux : mux;
  sys_made : gset positive;
  sys_pc : bcast_pc
}.

(** What the scheduler and the other goroutines decide. *)
Inductive action :=
| ASubscribe (ch : positive)
    (* a handler runs [frames := make(chan streamFrame)] and
       [sh.subscribe(frames)]; [ch] is the new channel *)
| AFrame (f : list byte) (order : list Z)
    (* [f := <-nextFrame] receives [f]; the [range] that follows visits the
       ids in the order [order] *)
| AReport (br : broadcastResult)
    (* [br := <-m.result] receives [br] *)
| AAdvance.
    (* the loop takes the lock again and the [range] moves on *)

(** The [range] moves on, under the lock: an entry removed before it is
    reached is not produced; the entry reached is read as it is now. Then
    [m.Unlock(); ch <- f], or the end of the loop. *)
Fixpoint advance (m : mux) (f : list byte) (order : list Z)
    : bcast_pc * list bcast_event :=
  match order with
  | [] => (AtNextFrame, [BRoundEnd])
  | k :: rest =>
      match clients m !! k with
      | Some ch => (AtResult f rest, [BSend ch f])
      | None => advance m f rest
      end
  end.

(** One step of the system. [None]: the action cannot happen here, or the
    goroutine panics (a failure report for an id that is not registered
    closes the [nil] channel). Lines 701-722:
<<
    f := <-nextFrame
    m.Lock()
    for _, ch := range m.clients {
        m.Unlock()
        ch <- f
        br := <-m.result // handle quitting clients
        if br.err != nil {
            m.Lock()
            close(m.clients[br.qid])
            delete(m.clients, br.qid)
            nclients := len(m.clients)
            m.Unlock()
            ...
        }
        m.Lock()
    }
    m.Unlock()
>> *)
Definition step (maxConnections : Z) (s : system) (a : action)
    : option (system * list bcast_event) :=
  match a with
  | ASubscribe ch =>
      if bool_decide (ch ∈ sys_made s) then None
      else
        '(m', (q, _)) ← subscribe maxConnections (sys_mux s) ch;
        Some (System m' ({[ ch ]} ∪ sys_made s) (sys_pc s),
              [if bool_decide (q < 0) then BRefused ch else BSubscribed q ch])
  | AFrame f order =>
      match sys_pc s with
      | AtNextFrame =>
          if bool_decide (NoDup order) then
            let '(pc, evs) := advance (sys_mux s) f order in
            Some (System (sys_mux s) (sys_made s) pc, evs)
          else None
      | _ => None
      end
  | AReport br =>
      match sys_pc s with
      | AtResult f order =>
          match err br with
          | None =>
              Some (System (sys_mux s) (sys_made s) (AtLoopHead f order),
                    [BRecv br])
          | Some _ =>
              '(m', ch) ← evict (sys_mux s) (qid br);
              Some (System m' (sys_made s) (AtLoopHead f order),
                    [BRecv br; BClose ch; BDelete (qid br)])
          end
      | _ => None
      end
  | AAdvance =>
      match sys_pc s with
      | AtLoopHead f order =>
          let '(pc, evs) := advance (sys_mux s) f order in
          Some (System (sys_mux s) (sys_made s) pc, evs)
      | _ => None
      end
  end.

(** A run: the state reached and the events, in order. *)
Fixpoint run (maxConnections : Z) (s : system) (acts : list action)
    : option (system * list bcast_event) :=
  match acts with
  | [] => Some (s, [])
  | a :: acts' =>
      '(s1, evs1) ← step maxConnections s a;
      '(s2, evs2) ← run maxConnections s1 acts';
      Some (s2, evs1 ++ evs2)
  end.

(** [new(mux).start(path)], before any connection. *)
Definition start_system (res : positive) : system :=
  System (start_mux res) ∅ AtNextFrame.

(** Counting in a trace. *)
Definition is_send (e : bcast_event) : bool :=
  match e with BSend _ _ => true | _ => false end.
Definition is_recv (e : bcast_event) : bool :=
  match e with BRecv _ => true | _ => false end.
Definition sends (tr : list bcast_event) : nat := length (filter is_send tr).
Definition recvs (tr : list bcast_event) : nat := length (filter is_recv tr).

(** How often frame [f] was sent on channel [ch]. *)
Definition is_send_to (ch : positive) (f : list byte) (e : bcast_event) : bool :=
  match e with
  | BSend c g => bool_decide (c = ch ∧ g = f)
  | _ => false
  end.
Definition sent_to (ch : positive) (f : list byte) (tr : list bcast_event) : nat :=
  length (filter (is_send_to ch f) tr).

(** The registry as the events of a trace leave it. *)
Definition registered (tr : list bcast_event) : gmap Z positive :=
  foldl (λ cl e, match e with
                 | BSubscribed q ch => <[q := ch]> cl
                 | BDelete q => delete q cl
                 | _ => cl
                 end) ∅ tr.

Definition is_frame_action (a : action) : bool :=
  match a with AFrame _ _ => true | _ => false end.

(** What holds of every state the system reaches, with the trace [tr] that
    led to it. *)
Record sys_inv (maxConnections : Z) (res : positive) (s : system)
    (tr : list bcast_event) : Prop := SysInv {
  inv_registered : clients (sys_mux s) = registered tr;
  inv_result : result (sys_mux s) = res;
  inv_keys : ∀ k, is_Some (clients (sys_mux s) !! k) →
                  0 ≤ k ≤ id_bound maxConnections;
  inv_made : ∀ k c, clients (sys_mux s) !! k = Some c → c ∈ sys_made s;
  inv_inj : ∀ k1 k2 c, clients (sys_mux s) !! k1 = Some c →
                       clients (sys_mux s) !! k2 = Some c → k1 = k2;
  inv_closed : ∀ c, BClose c ∈ tr →
                    c ∈ sys_made s ∧ ∀ k, clients (sys_mux s) !! k ≠ Some c;
  inv_count : sends tr = (recvs tr + match sys_pc s with
                                     | AtResult _ _ => 1
                                     | _ => 0
                                     end)%nat;
  inv_order : match sys_pc s with
              | AtNextFrame => True
              | AtResult _ order | AtLoopHead _ order => NoDup order
              end
}.

(** What holds during the round of frame [f] for an endpoint [ch]
    registered under [k] when the round began: while it stays registered,
    the frame has been sent to it once if the [range] is past [k], and not
    yet if [k] is still to come. *)
Definition round_inv (f : list byte) (k : Z) (ch : positive) (s : system)
    (tr : list bcast_event) : Prop :=
  ch ∈ sys_made s ∧
  (clients (sys_mux s) !! k = Some ch →
   (match sys_pc s with
    | AtNextFrame => sent_to ch f tr = 1%nat
    | AtResult g order | AtLoopHead g order =>
        g = f ∧
        ((k ∈ order ∧ sent_to ch f tr = 0%nat) ∨
         ((k ∉ order) ∧ sent_to ch f tr = 1%nat))
    end)).

(* ===================================================================== *)
(** * The client session: [streamHandler.ServeHTTP] *)
(* ===================================================================== *)

(** [http.StatusOK] and [http.StatusTooManyRequests]. *)
Definition StatusOK : Z := 200.
Definition StatusTooManyRequests : Z := 429.

(** [b := []byte{0x49, 0x44, 0x33, 0x03, 0x00, 0x00, 0x00, 0x00, 0x00, 0x00}] *)
Definition id3_stub : list byte :=
  [x49; x44; x33; x03; x00; x00; x00; x00; x00; x00].

(** [broadcastTimeout := 4 * time.Second] *)
Definition broadcastTimeout : Z := 4 * Second.

(** [errors.New(fmt.Sprintf("timeout: %v", broadcastTimeout))]: a
    [time.Duration] of four seconds prints as [4s]. *)
Definition timeout_error : error := Err "timeout: 4s".

(** How [io.Copy(w, bytes.NewReader(b))] returns: without error, all of [b]
    written; or with an error after [written] bytes. *)
Inductive copy_result :=
| CopyOk
| CopyErr (written : nat) (e : error).

(** The [select] after a frame has been handed to the writing goroutine:
    the result of the copy arrives on [result] first, or the channel of
    [time.After(broadcastTimeout)] fires first, [written] bytes having gone
    out by then. *)
Inductive frame_outcome :=
| InTime (r : copy_result)
| Late (written : nat).

(** What the handler does to the response and to the channels. *)
Inductive session_event :=
| SWriteHeader (code : Z)          (* [w.WriteHeader(code)] *)
| SSetHeader (key value : string)  (* [w.Header().Set(key, value)] *)
| SWrite (p : list byte)           (* bytes written to [w] *)
| SFlush                           (* [w.(http.Flusher).Flush()] *)
| SRecv (buf : list byte)          (* [buf := <-frames] *)
| SReport (br : broadcastResult).  (* [br <- broadcastResult{...}] *)

(** The loop of the handler, lines 761-782, and the report after it, line
    784. The list is the frames the session receives, each with the outcome
    of its [select]; when it is exhausted the handler waits in
    [<-frames].
<<
    for {
        buf := <-frames
        go func(r chan error, b []byte) {
            _, err = io.Copy(w, bytes.NewReader(b))
            r <- err
        }(result, buf)
        select {
        case err = <-result:
            if err != nil { break }
            br <- broadcastResult{qid, nil} // frame streamed, no error, send ack
        case <-time.After(broadcastTimeout):
            err = errors.New(fmt.Sprintf("timeout: %v", broadcastTimeout))
        }
        if err != nil { break }
    }
    ...
    br <- broadcastResult{qid, err} // error, send nack
>>
    The writing goroutine assigns the variable [err] of the handler too;
    the embedding follows the assignments of the handler itself. *)
Fixpoint stream_loop (q : Z) (frames : list (list byte * frame_outcome))
    : list session_event :=
  match frames with
  | [] => []
  | (buf, o) :: rest =>
      SRecv buf ::
      match o with
      | InTime CopyOk =>
          SWrite buf :: SReport (BroadcastResult q None) :: stream_loop q rest
      | InTime (CopyErr written e) =>
          [SWrite (take written buf); SReport (BroadcastResult q (Some e))]
      | Late written =>
          [SWrite (take written buf);
           SReport (BroadcastResult q (Some timeout_error))]
      end
  end.

(** [func (sh streamHandler) ServeHTTP(w http.ResponseWriter, r *http.Request)],
    lines 736-785. [now] is [now.Format(http.TimeFormat)], [sub] is what
    [sh.subscribe(frames)] returned, [stub_copy] is how the copy of the
    10-byte stub returned. *)
Definition ServeHTTP (now : string) (sub : Z * option positive)
    (stub_copy : copy_result) (frames : list (list byte * frame_outcome))
    : list session_event :=
  if bool_decide (fst sub < 0) then [SWriteHeader StatusTooManyRequests]
  else
    [SWriteHeader StatusOK;
     SSetHeader "Date" now;
     SSetHeader "Connection" "Keep-Alive";
     SSetHeader "Cache-Control" "no-cache";
     SSetHeader "Content-Type" "audio/mpeg";
     SSetHeader "Server" "BoringStreamer/4.0"]
    ++ match stub_copy with
       | CopyOk => SWrite id3_stub :: stream_loop (fst sub) frames
       | CopyErr written e =>
           [SWrite (take written id3_stub);
            SReport (BroadcastResult (fst sub) (Some e))]
       end.

Definition body_written (evs : list session_event) : list byte :=
  concat (omap (λ e, match e with SWrite p => Some p | _ => None end) evs).
Definition reports (evs : list session_event) : list broadcastResult :=
  omap (λ e, match e with SReport br => Some br | _ => None end) evs.

(** The frames a session gets to: those up to the first one whose write
    does not complete in time without error, that one included. *)
Fixpoint served (frames : list (list byte * frame_outcome))
    : list (list byte * frame_outcome) :=
  match frames with
  | [] => []
  | (buf, InTime CopyOk) :: rest => (buf, InTime CopyOk) :: served rest
  | (buf, o) :: _ => [(buf, o)]
  end.

(** The error a frame is reported with, and the bytes of it that went out. *)
Definition outcome_error (o : frame_outcome) : option error :=
  match o with
  | InTime CopyOk => None
  | InTime (CopyErr _ e) => Some e
  | Late _ => Some timeout_error
  end.

Definition outcome_bytes (f : list byte * frame_outcome) : list byte :=
  match snd f with
  | InTime CopyOk => fst f
  | InTime (CopyErr written _) => take written (fst f)
  | Late written => take written (fst f)
  end.

(* ===================================================================== *)
(** * The session from the connection on, and the earlier handler *)
(* ===================================================================== *)

(** The first lines of [ServeHTTP] with the rest of it: the new channel is
    subscribed, and the handler goes on with what [subscribe] returned.
<<
    frames := make(chan streamFrame)
    qid, br := sh.subscribe(frames)
>> *)
Definition serve_connection (maxConnections : Z) (m : mux) (frames_ch : positive)
    (now : string) (stub_copy : copy_result)
    (frames : list (list byte * frame_outcome))
    : option (mux * list session_event) :=
  '(m', sub) ← subscribe maxConnections m frames_ch;
  Some (m', ServeHTTP now sub stub_copy frames).

(** The [select] of the earlier handler (lines 364-385). Its writing
    goroutine flushes after a copy without error and before it sends the
    result, so when the deadline comes first the flush may or may not have
    been called:
<<
    go func(r chan error, b []byte) {
        _, err = io.Copy(w, bytes.NewReader(b))
        if err == nil {
            w.(http.Flusher).Flush()
        }
        r <- err
    }(result, buf)
>> *)
Inductive frame_outcome_v1 :=
| InTimeV1 (r : copy_result)
| LateV1 (written : nat) (flush_called : bool).

(** The loop of the earlier handler and the report after it. *)
Fixpoint stream_loop_v1 (q : Z) (frames : list (list byte * frame_outcome_v1))
    : list session_event :=
  match frames with
  | [] => []
  | (buf, o) :: rest =>
      SRecv buf ::
      match o with
      | InTimeV1 CopyOk =>
          SWrite buf :: SFlush :: SReport (BroadcastResult q None)
            :: stream_loop_v1 q rest
      | InTimeV1 (CopyErr written e) =>
          [SWrite (take written buf); SReport (BroadcastResult q (Some e))]
      | LateV1 written flush_called =>
          SWrite (take written buf)
            :: (if flush_called then [SFlush] else [])
            ++ [SReport (BroadcastResult q (Some timeout_error))]
      end
  end.

(** [ServeHTTP] of the earlier revision, lines 339-388. *)
Definition ServeHTTP_v1 (now : string) (sub : Z * option positive)
    (stub_copy : copy_result) (frames : list (list byte * frame_outcome_v1))
    : list session_event :=
  if bool_decide (fst sub < 0) then [SWriteHeader StatusTooManyRequests]
  else
    [SWriteHeader StatusOK;
     SSetHeader "Date" now;
     SSetHeader "Connection" "Keep-Alive";
     SSetHeader "Cache-Control" "no-cache";
     SSetHeader "Content-Type" "audio/mpeg";
     SSetHeader "Server" "BoringStreamer/4.0"]
    ++ match stub_copy with
       | CopyOk => SWrite id3_stub :: stream_loop_v1 (fst sub) frames
       | CopyErr written e =>
           [SWrite (take written id3_stub);
            SReport (BroadcastResult (fst sub) (Some e))]
       end.

(** An outcome of the earlier handler as the current one sees it. *)
Definition forget_flush (o : frame_outcome_v1) : frame_outcome :=
  match o with
  | InTimeV1 r => InTime r
  | LateV1 written _ => Late written
  end.

Definition is_flush (e : session_event) : bool :=
  match e with SFlush => true | _ => false end.

Definition is_failure_report (e : session_event) : bool :=
  match e with
  | SReport (BroadcastResult _ (Some _)) => true
  | _ => false
  end.

(* ===================================================================== *)
(** * The earlier pacing, the stream opener, the earlier scan *)
(* ===================================================================== *)

(** Lines 302-305 of the earlier revision:
<<
    towait := f.Duration() - time.Now().Sub(t0)
    if towait > 0 {
        time.Sleep(towait)
    }
>> *)
Definition pace_v1 (duration cost : Z) : list pipe_event :=
  let towait := wrap_int (duration - cost) in
  if bool_decide (0 < towait) then [PSleep towait] else [].

(** The decoding goroutine of the earlier revision, lines 250-308. *)
Fixpoint decode_stream_v1 (units : list decode_unit) : list pipe_event :=
  match units with
  | [] => []
  | DecodeErr :: rest => decode_stream_v1 rest
  | ReaderErr :: rest => decode_stream_v1 rest
  | Decoded buf duration cost :: rest =>
      PFrame buf :: pace_v1 duration cost ++ decode_stream_v1 rest
  end.

Definition decode_goroutine_v1 (streams : list (list decode_unit))
    : list pipe_event :=
  concat (map decode_stream_v1 streams).

(** The frames sent on [nextFrame]. *)
Definition frames_emitted (evs : list pipe_event) : list (list byte) :=
  omap (λ e, match e with PFrame buf => Some buf | _ => None end) evs.

(** The goroutine that opens the files, lines 627-647: with the path [-]
    the one stream is the standard input; else every name received on
    [nextFile] is opened, a name that cannot be opened is skipped
    ([continue]) and the others are sent on [nextStream]. A stream is the
    units its decoding yields; [Open] is [os.Open]. *)
Definition open_streams (Open : string → option (list decode_unit))
    (stdin : list decode_unit) (path : string) (files : list string)
    : list (list decode_unit) :=
  if bool_decide (path = "-") then [stdin] else omap Open files.

(** The callback of the scan in the earlier revision, lines 161-175: an
    error is returned to [filepath.Walk].
<<
    if err != nil { return err }
    if !info.Mode().IsRegular() { return nil }
    ok := strings.HasSuffix(strings.ToLower(info.Name()), ".mp3")
    if !info.IsDir() && !ok { return nil }
    files <- path
    return nil
>> *)
Definition scan_walkFn_v1 (path : string) (v : visit) (files : list string)
    : list string * option error :=
  match v with
  | VisitErr _ err => (files, Some err)
  | VisitOk info =>
      if negb (fi_IsRegular info) then (files, None)
      else
        let ok := HasSuffix (ToLower (fi_Name info)) ".mp3" in
        if negb (fi_IsDir info) && negb ok then (files, None)
        else (files ++ [path], None)
  end.

(** One pass of the scan of the earlier revision: the paths sent on [files]
    and what [filepath.Walk] returned. *)
Definition scan_files_v1 (Join : string → string → string) (root : string)
    (tree : fsnode) : list string * option error :=
  walk Join scan_walkFn_v1 root tree [].

(** No name of the tree fails [os.Lstat] and every directory can be
    read. *)
Fixpoint error_free (n : fsnode) : bool :=
  match n with
  | FsFile _ _ => true
  | FsNoStat _ _ => false
  | FsDir _ (Some _) _ => false
  | FsDir _ None entries =>
      (fix all_free (es : list fsnode) : bool :=
         match es with
         | [] => true
         | e :: es' => error_free e && all_free es'
         end) entries
  end.

(* ===================================================================== *)
(** * The positional arguments of [main] *)
(* ===================================================================== *)

(** Lines 797-813 of [main]: the path to stream from and the value of
    [debugging]; [None] is [flag.Usage(); os.Exit(1)].
<<
    if len(flag.Args()) > 1 && flag.Args()[1] != "-debug" {
        flag.Usage()
        os.Exit(1)
    }
    path := "/"
    switch len(flag.Args()) {
    case 0: ...
    case 1:
        path = flag.Args()[0]
    case 2:
        path = flag.Args()[0]
        debugging = true
    }
>> *)
Definition main_args (args : list string) : option (string * bool) :=
  if bool_decide (1 < length args)%nat
     && negb (bool_decide (args !! 1%nat = Some "-debug"))
  then None
  else
    match length args with
    | 0%nat => Some ("/", false)
    | 1%nat => Some (default "/" (args !! 0%nat), false)
    | 2%nat => Some (default "/" (args !! 0%nat), true)
    | _ => Some ("/", false)
    end.

(* ===================================================================== *)
(** * Reading the runs of the system *)
(* ===================================================================== *)

(** The frames that arrived on [nextFrame], in order. *)
Definition arrived (acts : list action) : list (list byte) :=
  omap (λ a, match a with AFrame f _ => Some f | _ => None end) acts.

(** The frames sent on channel [ch], in order. *)
Definition frame_to (ch : positive) (e : bcast_event) : option (list byte) :=
  match e with
  | BSend c f => if bool_decide (c = ch) then Some f else None
  | _ => None
  end.
Definition frames_sent_to (ch : positive) (tr : list bcast_event)
    : list (list byte) :=
  omap (frame_to ch) tr.

(** What holds of the frames sent on a channel [ch], [arr] being the frames
    that have arrived: they are a sublist of the arrived frames; during the
    round of a frame, while [ch] is registered under an id still to visit,
    they are a sublist of the frames arrived before that round; and nothing
    was sent on a channel that has not been made. *)
Definition order_inv (ch : positive) (s : system) (tr : list bcast_event)
    (arr : list (list byte)) : Prop :=
  (ch ∉ sys_made s → frames_sent_to ch tr = []) ∧
  match sys_pc s with
  | AtNextFrame => frames_sent_to ch tr `sublist_of` arr
  | AtResult f order | AtLoopHead f order =>
      ∃ before,
        arr = before ++ [f] ∧
        frames_sent_to ch tr `sublist_of` arr ∧
        ((∃ k, k ∈ order ∧ clients (sys_mux s) !! k = Some ch) →
         frames_sent_to ch tr `sublist_of` before)
  end.

(** Every event but a flush. *)
Definition not_flush (e : session_event) : bool := negb (is_flush e).

(** A small tree: two matching files, a text file, a symbolic link with a
    matching name, and a directory that cannot be read. *)
Definition sample_tree : fsnode :=
  FsDir "music" None
    [FsFile "a.MP3" true;
     FsDir "locked" (Some (Err "permission denied")) [FsFile "x.mp3" true];
     FsFile "link.mp3" false;
     FsFile "notes.txt" true;
     FsDir "sub" None [FsFile "b.mp3" true]].

(** [filepath.Join] on a directory path without a trailing separator. *)
Definition join_slash (dir name : string) : string := dir +:+ "/" +:+ name.

(* ===================================================================== *)
(** * Theorems: the registry *)
(* ===================================================================== *)

Lemma wrap_int_id z : int_min ≤ z ≤ int_max → wrap_int z = z.
Proof.
  unfold wrap_int, int_min, int_max. intros H.
  rewrite Z.mod_small; lia.
Qed.

Lemma wrap_int_range z : int_min ≤ wrap_int z ≤ int_max.
Proof.
  unfold wrap_int, int_min, int_max.
  pose proof (Z.mod_pos_bound (z + 2 ^ 63) (2 ^ 64) ltac:(lia)). lia.
Qed.

Lemma id_bound_pos maxc : 1 ≤ maxc ≤ int_max → id_bound maxc = maxc - 1.
Proof.
  intros H. unfold id_bound. rewrite wrap_int_id; [lia|].
  unfold int_min, int_max in *. lia.
Qed.

(** What the search loop has established when it ends, whatever the
    budget. *)
Lemma scan_qid_spec cl maxc fuel q :
  0 ≤ q ≤ int_max →
  match scan_qid cl maxc fuel q with
  | ScanFree r =>
      q ≤ r ∧ cl !! r = None ∧ (∀ i, q ≤ i < r → is_Some (cl !! i)) ∧
      (r = q ∨ r ≤ wrap_int (maxc - 1))
  | ScanFull =>
      ∃ r, q ≤ r ∧ wrap_int (maxc - 1) ≤ r ∧
           (∀ i, q ≤ i ≤ r → is_Some (cl !! i)) ∧
           (r = q ∨ r ≤ wrap_int (maxc - 1))
  | ScanFuel => ∀ i, q ≤ i ≤ q + Z.of_nat fuel → is_Some (cl !! i)
  end.
Proof.
  assert (∀ k i c, cl !! k = Some c → k ≤ i ≤ k → is_Some (cl !! i)) as Hone.
  { intros k i c Hc Hi. assert (i = k) as -> by lia. by rewrite Hc. }
  revert q. induction fuel as [|fuel IH]; intros q Hq; simpl.
  - destruct (cl !! q) as [c|] eqn:Hc.
    + case_bool_decide as Hb.
      * exists q. split_and!; [lia|lia|intros; by eapply Hone|by left].
      * intros i Hi. eapply Hone; [done|lia].
    + split_and!; [lia|done|intros; lia|by left].
  - destruct (cl !! q) as [c|] eqn:Hc.
    + case_bool_decide as Hb.
      * exists q. split_and!; [lia|lia|intros; by eapply Hone|by left].
      * pose proof (wrap_int_range (maxc - 1)) as HB.
        assert (wrap_int (q + 1) = q + 1) as Hw.
        { apply wrap_int_id. unfold int_min, int_max in *. lia. }
        rewrite Hw. specialize (IH (q + 1) ltac:(lia)).
        destruct (scan_qid cl maxc fuel (q + 1)) as [r| |].
        -- destruct IH as (Hr & Hn & Hocc & Hb').
           split_and!; [lia|done| |right; lia].
           intros i Hi. destruct (decide (i = q)) as [->|]; [by rewrite Hc|].
           apply Hocc. lia.
        -- destruct IH as (r & Hr & HBr & Hocc & Hb'). exists r.
           split_and!; [lia|lia| |right; lia].
           intros i Hi. destruct (decide (i = q)) as [->|]; [by rewrite Hc|].
           apply Hocc. lia.
        -- intros i Hi. destruct (decide (i = q)) as [->|]; [by rewrite Hc|].
           apply IH. lia.
    + split_and!; [lia|done|intros; lia|by left].
Qed.

(** [n] occupied ids take [n] entries. *)
Lemma occupied_le_size (n : nat) (cl : gmap Z positive) :
  (∀ i : nat, (i < n)%nat → is_Some (cl !! Z.of_nat i)) → (n ≤ size cl)%nat.
Proof.
  revert cl. induction n as [|n IH]; intros cl Hocc; [lia|].
  assert (is_Some (cl !! Z.of_nat n)) as Hn by (apply Hocc; lia).
  pose proof (map_size_delete_Some (Z.of_nat n) cl Hn) as Hsz.
  assert (size cl ≠ 0%nat) as Hne.
  { apply map_size_non_empty_iff. intros ->. rewrite lookup_empty in Hn.
    by destruct Hn. }
  assert (n ≤ size (delete (Z.of_nat n) cl))%nat; [|lia].
  apply IH. intros i Hi. rewrite lookup_delete_ne by lia. apply Hocc. lia.
Qed.

(** The budget of [subscribe] is never exhausted: the call returns. *)
Lemma scan_qid_fuel cl maxc :
  scan_qid cl maxc (size cl) 0 ≠ ScanFuel.
Proof.
  intros Hs. pose proof (scan_qid_spec cl maxc (size cl) 0) as H.
  rewrite Hs in H. specialize (H ltac:(unfold int_max; lia)).
  assert (S (size cl) ≤ size cl)%nat; [|lia].
  apply occupied_le_size. intros i Hi. apply H. lia.
Qed.

Lemma subscribe_total maxc m ch : is_Some (subscribe maxc m ch).
Proof.
  unfold subscribe. pose proof (scan_qid_fuel (clients m) maxc).
  destruct (scan_qid _ _ _ _); by eauto.
Qed.

(** The two ways [subscribe] returns, for every registry and every
    configured maximum. *)
Lemma subscribe_spec maxc m ch m' q br :
  subscribe maxc m ch = Some (m', (q, br)) →
  (q = -1 ∧ br = None ∧ m' = m ∧
   ∀ i, 0 ≤ i ≤ id_bound maxc → is_Some (clients m !! i))
  ∨ (0 ≤ q ≤ id_bound maxc ∧ br = Some (result m) ∧
     m' = Mux (<[q := ch]> (clients m)) (result m) ∧
     clients m !! q = None ∧
     ∀ i, 0 ≤ i < q → is_Some (clients m !! i)).
Proof.
  unfold subscribe, id_bound.
  pose proof (scan_qid_spec (clients m) maxc (size (clients m)) 0
                ltac:(unfold int_max; lia)) as H.
  destruct (scan_qid _ _ _ _) as [r| |]; intros Heq; simplify_eq.
  - right. destruct H as (Hr & Hn & Hocc & Hb).
    split_and!; [lia|lia|done|done|done|done].
  - left. destruct H as (r & Hr & HB & Hocc & Hb).
    split_and!; [done..|]. intros i Hi. apply Hocc. lia.
Qed.

(** [subscribe] refuses exactly when every id it can reach is taken. *)
Lemma subscribe_refuses_iff maxc m ch :
  snd <$> subscribe maxc m ch = Some (-1, None) ↔
  ∀ i, 0 ≤ i ≤ id_bound maxc → is_Some (clients m !! i).
Proof.
  destruct (subscribe_total maxc m ch) as [[m' [q br]] Hs].
  rewrite Hs. simpl. apply subscribe_spec in Hs as Hsp.
  destruct Hsp as [(-> & -> & -> & Hocc)|(Hq & -> & -> & Hfree & Hocc)].
  - by split.
  - split.
    + by intros [=].
    + intros Hall. specialize (Hall q Hq). rewrite Hfree in Hall.
      by destruct Hall.
Qed.

(** The ids of a registry built by [subscribe] and [evict] lie in
    [0 .. id_bound], and its result channel is the one of [start]. *)
Lemma reg_step_keys maxc m op m' :
  (∀ k, is_Some (clients m !! k) → 0 ≤ k ≤ id_bound maxc) →
  reg_step maxc m op = Some m' →
  (∀ k, is_Some (clients m' !! k) → 0 ≤ k ≤ id_bound maxc) ∧
  result m' = result m.
Proof.
  intros Hk. destruct op as [ch|qid]; simpl.
  - destruct (subscribe maxc m ch) as [[m1 [q br]]|] eqn:Hs; [|done].
    simpl. intros [= <-]. apply subscribe_spec in Hs.
    destruct Hs as [(-> & -> & -> & _)|(Hq & -> & -> & _ & _)]; [done|].
    simpl. split; [|done]. intros k.
    destruct (decide (q = k)) as [->|Hne]; [done|].
    rewrite lookup_insert_ne by done. apply Hk.
  - unfold evict. destruct (clients m !! qid) as [c|]; [|done].
    simpl. intros [= <-]. simpl. split; [|done]. intros k.
    destruct (decide (qid = k)) as [->|Hne].
    + rewrite lookup_delete_eq. by intros [? ?].
    + rewrite lookup_delete_ne by done. apply Hk.
Qed.

Lemma reg_run_keys maxc ops m m' :
  (∀ k, is_Some (clients m !! k) → 0 ≤ k ≤ id_bound maxc) →
  reg_run maxc m ops = Some m' →
  (∀ k, is_Some (clients m' !! k) → 0 ≤ k ≤ id_bound maxc) ∧
  result m' = result m.
Proof.
  revert m. induction ops as [|op ops IH]; intros m Hk; simpl.
  - by intros [= <-].
  - destruct (reg_step maxc m op) as [m1|] eqn:Hst; [|done].
    intros Hrun. destruct (reg_step_keys _ _ _ _ Hk Hst) as [Hk1 Hr1].
    destruct (IH _ Hk1 Hrun) as [Hk' Hr']. split; [done|congruence].
Qed.

Lemma reg_run_start_keys maxc res ops m :
  reg_run maxc (start_mux res) ops = Some m →
  (∀ k, is_Some (clients m !! k) → 0 ≤ k ≤ id_bound maxc) ∧ result m = res.
Proof.
  intros Hrun. eapply (reg_run_keys maxc ops (start_mux res)); [|done].
  intros k. simpl. rewrite lookup_empty. by intros [? ?].
Qed.

(** A registry whose ids lie in [0 .. b] has all of them taken exactly when
    it has [b + 1] entries. *)
Lemma all_taken_iff_size (cl : gmap Z positive) (b : Z) :
  0 ≤ b →
  (∀ k, is_Some (cl !! k) → 0 ≤ k ≤ b) →
  (∀ i, 0 ≤ i ≤ b → is_Some (cl !! i)) ↔ size cl = Z.to_nat (b + 1).
Proof.
  intros Hb Hk.
  set (R := list_to_set (seqZ 0 (b + 1)) : gset Z).
  assert (∀ i, i ∈ R ↔ 0 ≤ i ≤ b) as HR.
  { intros i. unfold R. rewrite elem_of_list_to_set, elem_of_seqZ. lia. }
  assert (size R = Z.to_nat (b + 1)) as HsR.
  { unfold R. rewrite size_list_to_set by apply NoDup_seqZ.
    by rewrite length_seqZ. }
  assert (dom cl ⊆ R) as Hsub.
  { intros k Hin. apply HR, Hk. by apply elem_of_dom. }
  rewrite <- HsR, <- (size_dom (D := gset Z) cl). split.
  - intros Hall. f_equal. apply set_eq. intros i. split; [apply Hsub|].
    intros Hi. apply elem_of_dom, Hall, HR, Hi.
  - intros Hsz i Hi.
    assert (dom cl = R) as Heq by (apply set_subseteq_size_eq; [done|lia]).
    apply elem_of_dom. rewrite Heq. by apply HR.
Qed.

(** For a positive maximum, a successful [subscribe] on a registry built by
    [subscribe] and [evict] returns the smallest id of
    [0 .. maxConnections - 1] that is free, installs the endpoint under it
    and hands out the shared result channel. *)
Theorem subscribe_smallest_free maxc res ops m ch m' q br :
  1 ≤ maxc ≤ int_max →
  reg_run maxc (start_mux res) ops = Some m →
  subscribe maxc m ch = Some (m', (q, br)) →
  q ≠ -1 →
  0 ≤ q < maxc ∧
  clients m !! q = None ∧
  (∀ i, 0 ≤ i < q → is_Some (clients m !! i)) ∧
  clients m' = <[q := ch]> (clients m) ∧
  br = Some res.
Proof.
  intros Hmax Hrun Hs Hq.
  destruct (reg_run_start_keys _ _ _ _ Hrun) as [_ Hres].
  apply subscribe_spec in Hs. rewrite id_bound_pos in Hs by done.
  destruct Hs as [(-> & _)|(Hr & -> & -> & Hfree & Hocc)]; [done|].
  simpl. split_and!; [lia|lia|done|done|done|by rewrite Hres].
Qed.

(** C1. With [-max 0] the registry still admits a client: on the empty
    registry [subscribe] returns id 0, which is not an id of [[0, 0)]. The
    bound [qid >= *maxConnections-1] is only tested once an occupied id has
    been found. *)
Theorem subscribe_zero_max_admits :
  subscribe 0 (start_mux 1) 2
  = Some (Mux {[ 0 := 2%positive ]} 1, (0, Some 1%positive)) ∧
  ¬ (0 ≤ 0 < 0).
Proof. split; [reflexivity|lia]. Qed.

(** C2, as stated, fails: with a maximum of 3 and exactly 3 - 1 = 2 ids
    occupied, [subscribe] succeeds and returns id 2. *)
Lemma subscribe_at_max_minus_one_succeeds :
  ∃ m, reg_run 3 (start_mux 1) [OpSubscribe 10; OpSubscribe 11] = Some m ∧
       size (clients m) = Z.to_nat (3 - 1) ∧
       snd <$> subscribe 3 m 12 = Some (2, Some 1%positive).
Proof. eexists. split; [reflexivity|]. split; reflexivity. Qed.

(** C2, amended. For a maximum of at least 1, [subscribe] on a registry
    built by [subscribe] and [evict] returns the failure sentinel
    [(-1, nil)] if and only if exactly [maxConnections] ids are occupied
    (all of [0 .. maxConnections - 1]); otherwise it installs the endpoint
    under the returned id and returns the shared result channel. *)
Theorem subscribe_fails_iff_all_taken maxc res ops m ch :
  1 ≤ maxc ≤ int_max →
  reg_run maxc (start_mux res) ops = Some m →
  ∃ m' q br,
    subscribe maxc m ch = Some (m', (q, br)) ∧
    ((q, br) = (-1, None) ↔ size (clients m) = Z.to_nat maxc) ∧
    ((q, br) = (-1, None) → m' = m) ∧
    ((q, br) ≠ (-1, None) →
       0 ≤ q < maxc ∧ br = Some res ∧
       m' = Mux (<[q := ch]> (clients m)) res).
Proof.
  intros Hmax Hrun.
  destruct (reg_run_start_keys _ _ _ _ Hrun) as [Hk Hres].
  rewrite id_bound_pos in Hk by done.
  destruct (subscribe_total maxc m ch) as [[m' [q br]] Hs].
  exists m', q, br. split; [done|].
  pose proof (all_taken_iff_size (clients m) (maxc - 1) ltac:(lia) Hk) as Hsz.
  replace (maxc - 1 + 1) with maxc in Hsz by lia.
  apply subscribe_spec in Hs. rewrite id_bound_pos in Hs by done.
  destruct Hs as [(-> & -> & -> & Hocc)|(Hq & -> & -> & Hfree & Hocc)].
  - split_and!; [|done|done]. split; [|done]. intros _. by apply (proj1 Hsz).
  - split_and!.
    + split; [intros [=]; lia|]. intros Hfull.
      pose proof (proj2 Hsz Hfull q ltac:(lia)) as Hocc'.
      rewrite Hfree in Hocc'. by destruct Hocc'.
    + intros [=]; lia.
    + intros _. split_and!; [lia|lia|by rewrite Hres|by rewrite Hres].
Qed.

Lemma subscribe_fails_iff_all_taken_witness :
  ∃ m, reg_run 2 (start_mux 1) [OpSubscribe 5; OpSubscribe 6] = Some m ∧
  ∃ m' q br,
    subscribe 2 m 7 = Some (m', (q, br)) ∧
    ((q, br) = (-1, None) ↔ size (clients m) = Z.to_nat 2) ∧
    ((q, br) = (-1, None) → m' = m) ∧
    ((q, br) ≠ (-1, None) →
       0 ≤ q < 2 ∧ br = Some 1%positive ∧
       m' = Mux (<[q := 7%positive]> (clients m)) 1).
Proof.
  eexists. split; [reflexivity|].
  apply (subscribe_fails_iff_all_taken 2 1 [OpSubscribe 5; OpSubscribe 6]).
  - unfold int_max. lia.
  - reflexivity.
Defined.

(* ===================================================================== *)
(** * Theorems: [stripID3Header] *)
(* ===================================================================== *)

Lemma wrap_int32_id z : - 2 ^ 31 ≤ z < 2 ^ 31 → wrap_int32 z = z.
Proof. intros H. unfold wrap_int32. rewrite Z.mod_small; lia. Qed.

Lemma int32_of_byte_range b : 0 ≤ int32_of_byte b < 256.
Proof.
  unfold int32_of_byte. pose proof (Byte.to_N_bounded b). lia.
Qed.

(** A multiple of [2 ^ k] and a number below [2 ^ k] share no bit. *)
Lemma land_shifted x b k :
  0 ≤ k → 0 ≤ b < 2 ^ k → Z.land (x * 2 ^ k) b = 0.
Proof.
  intros Hk Hb. apply Z.bits_inj'. intros n Hn.
  rewrite Z.land_spec, Z.bits_0.
  destruct (decide (n < k)) as [Hlt|Hge].
  - rewrite Z.mul_pow2_bits_low by lia. done.
  - destruct (decide (b = 0)) as [->|Hne].
    + rewrite Z.bits_0. apply andb_false_r.
    + rewrite (Z.bits_above_log2 b n); [apply andb_false_r|lia|].
      apply Z.log2_lt_pow2; [lia|].
      apply Z.lt_le_trans with (2 ^ k); [lia|].
      apply Z.pow_le_mono_r; lia.
Qed.

Lemma lor_shifted x b k :
  0 ≤ k → 0 ≤ b < 2 ^ k → Z.lor (x * 2 ^ k) b = x * 2 ^ k + b.
Proof.
  intros Hk Hb. pose proof (land_shifted x b k Hk Hb) as Hl.
  rewrite <- Z.lxor_lor by done. symmetry. by apply Z.add_nocarry_lxor.
Qed.

(** On a syncsafe size field the shifts and ors of the code compute the
    syncsafe integer, plus the 10 bytes of the header. *)
Lemma id3size_syncsafe b6 b7 b8 b9 :
  syncsafe_byte b6 → syncsafe_byte b7 → syncsafe_byte b8 → syncsafe_byte b9 →
  id3size b6 b7 b8 b9 = 10 + syncsafe b6 b7 b8 b9.
Proof.
  unfold syncsafe_byte, id3size, syncsafe, shl32.
  pose proof (int32_of_byte_range b6). pose proof (int32_of_byte_range b7).
  pose proof (int32_of_byte_range b8). pose proof (int32_of_byte_range b9).
  set (v6 := int32_of_byte b6) in *. set (v7 := int32_of_byte b7) in *.
  set (v8 := int32_of_byte b8) in *. set (v9 := int32_of_byte b9) in *.
  intros H6 H7 H8 H9.
  rewrite !Z.shiftl_mul_pow2 by lia.
  rewrite !(Z.mod_small _ 128) by lia.
  rewrite (wrap_int32_id (v6 * 2 ^ 21)) by lia.
  rewrite (wrap_int32_id (v7 * 2 ^ 14)) by lia.
  rewrite (wrap_int32_id (v8 * 2 ^ 7)) by lia.
  rewrite (lor_shifted v6 (v7 * 2 ^ 14) 21) by lia.
  replace (v6 * 2 ^ 21 + v7 * 2 ^ 14)
    with ((v6 * 2 ^ 7 + v7) * 2 ^ 14) by lia.
  rewrite (lor_shifted _ (v8 * 2 ^ 7) 14) by lia.
  replace ((v6 * 2 ^ 7 + v7) * 2 ^ 14 + v8 * 2 ^ 7)
    with ((v6 * 2 ^ 14 + v7 * 2 ^ 7 + v8) * 2 ^ 7) by lia.
  rewrite (lor_shifted _ v9 7) by lia.
  rewrite wrap_int32_id by lia. lia.
Qed.

Lemma lor_below a b n :
  0 < n → 0 ≤ a < 2 ^ n → 0 ≤ b < 2 ^ n → 0 ≤ Z.lor a b < 2 ^ n.
Proof.
  intros Hn Ha Hb.
  assert (0 ≤ Z.lor a b) as H0 by (apply Z.lor_nonneg; lia).
  split; [done|].
  destruct (decide (Z.lor a b = 0)) as [->|Hne]; [lia|].
  apply Z.log2_lt_pow2; [lia|].
  rewrite Z.log2_lor by lia.
  assert (∀ c, 0 ≤ c < 2 ^ n → Z.log2 c < n) as Hlog.
  { intros c Hc. destruct (decide (c = 0)) as [->|]; [simpl; lia|].
    apply Z.log2_lt_pow2; lia. }
  pose proof (Hlog a Ha). pose proof (Hlog b Hb). lia.
Qed.

(** The computed tag length is never negative and never wraps. *)
Lemma id3size_range b6 b7 b8 b9 : 10 ≤ id3size b6 b7 b8 b9 < 2 ^ 30.
Proof.
  unfold id3size, shl32.
  pose proof (int32_of_byte_range b6). pose proof (int32_of_byte_range b7).
  pose proof (int32_of_byte_range b8). pose proof (int32_of_byte_range b9).
  set (v6 := int32_of_byte b6) in *. set (v7 := int32_of_byte b7) in *.
  set (v8 := int32_of_byte b8) in *. set (v9 := int32_of_byte b9) in *.
  rewrite !Z.shiftl_mul_pow2 by lia.
  rewrite (wrap_int32_id (v6 * 2 ^ 21)) by lia.
  rewrite (wrap_int32_id (v7 * 2 ^ 14)) by lia.
  rewrite (wrap_int32_id (v8 * 2 ^ 7)) by lia.
  assert (0 ≤ Z.lor (v6 * 2 ^ 21) (v7 * 2 ^ 14) < 2 ^ 29) as Hl1
    by (apply lor_below; lia).
  assert (0 ≤ Z.lor (Z.lor (v6 * 2 ^ 21) (v7 * 2 ^ 14)) (v8 * 2 ^ 7) < 2 ^ 29)
 as Hl2 by (apply lor_below; lia).
  assert (0 ≤ Z.lor (Z.lor (Z.lor (v6 * 2 ^ 21) (v7 * 2 ^ 14)) (v8 * 2 ^ 7)) v9
          < 2 ^ 29) as Hl3 by (apply lor_below; lia).
  rewrite wrap_int32_id by lia. lia.
Qed.

Lemma slice_to_3 buf :
  slice_to buf 3 =
  if bool_decide (3 ≤ slice_cap buf)%nat
  then Some (Slice (take 3 (elems buf ++ spare buf))
                   (drop 3 (elems buf ++ spare buf)))
  else None.
Proof.
  unfold slice_to. repeat case_bool_decide; try lia; done.
Qed.

(** The body of [stripID3Header] once the marker has been found. *)
Lemma stripID3Header_marker buf :
  (3 ≤ slice_cap buf)%nat →
  take 3 (elems buf ++ spare buf) = ID3 →
  stripID3Header buf None =
    (b6 ← elems buf !! 6%nat; b7 ← elems buf !! 7%nat;
     b8 ← elems buf !! 8%nat; b9 ← elems buf !! 9%nat;
     tl ← slice_from buf (id3size b6 b7 b8 b9); Some (elems tl)).
Proof.
  intros Hcap Hm. unfold stripID3Header. rewrite slice_to_3.
  rewrite bool_decide_true by done. simpl. rewrite Hm.
  rewrite bool_decide_false by (intros Hne; by apply Hne). done.
Qed.

Lemma stripID3Header_no_marker buf :
  (3 ≤ slice_cap buf)%nat →
  take 3 (elems buf ++ spare buf) ≠ ID3 →
  stripID3Header buf None = Some (elems buf).
Proof.
  intros Hcap Hm. unfold stripID3Header. rewrite slice_to_3.
  rewrite bool_decide_true by done. simpl.
  by rewrite bool_decide_true by done.
Qed.

Lemma take_3_full buf :
  (3 ≤ slice_len buf)%nat →
  take 3 (elems buf ++ spare buf) = take 3 (elems buf).
Proof. intros H. apply take_app_le. exact H. Qed.

Lemma marker_len (data : list byte) : take 3 data = ID3 → (3 ≤ length data)%nat.
Proof.
  intros H. apply (f_equal length) in H. rewrite length_take in H.
  change (length ID3) with 3%nat in H. lia.
Qed.

(** C3, as stated, fails: a buffer that begins with the marker but is
    shorter than the tag it declares (here 10 bytes, declared size 1) makes
    [buf[id3size:]] panic; no suffix is returned. *)
Lemma stripID3Header_truncated_tag_panics :
  take 3 (elems (read_buffer truncated_tag)) = ID3 ∧
  stripID3Header (read_buffer truncated_tag) None = None.
Proof. split; vm_compute; reflexivity. Qed.

(** C3, amended. For every buffer that begins with the marker, whose size
    bytes at offsets 6..9 are present and syncsafe, and that is at least
    [10 + s] bytes long, [s] being the syncsafe integer of those bytes,
    [stripID3Header] returns the suffix of the buffer from offset [10 + s];
    for every buffer whose first three bytes, as [buf[:3]] reads them
    within a capacity of at least 3, are not the marker, it returns the
    buffer unchanged, byte for byte. *)
Theorem stripID3Header_strips buf :
  (take 3 (elems buf) = ID3 →
   ∀ b6 b7 b8 b9,
     elems buf !! 6%nat = Some b6 → elems buf !! 7%nat = Some b7 →
     elems buf !! 8%nat = Some b8 → elems buf !! 9%nat = Some b9 →
     syncsafe_byte b6 → syncsafe_byte b7 → syncsafe_byte b8 → syncsafe_byte b9 →
     10 + syncsafe b6 b7 b8 b9 ≤ Z.of_nat (slice_len buf) →
     stripID3Header buf None
     = Some (drop (Z.to_nat (10 + syncsafe b6 b7 b8 b9)) (elems buf)))
  ∧ ((3 ≤ slice_cap buf)%nat → take 3 (elems buf ++ spare buf) ≠ ID3 →
     stripID3Header buf None = Some (elems buf)).
Proof.
  split.
  - intros Hm b6 b7 b8 b9 H6 H7 H8 H9 S6 S7 S8 S9 Hfit.
    pose proof (marker_len _ Hm) as Hlen.
    rewrite stripID3Header_marker.
    + rewrite H6, H7, H8, H9. simpl.
      rewrite id3size_syncsafe by done. unfold slice_from.
      rewrite bool_decide_true; [done|].
      pose proof (id3size_range b6 b7 b8 b9) as Hr.
      rewrite id3size_syncsafe in Hr by done. lia.
    + unfold slice_cap. lia.
    + by rewrite take_3_full.
  - apply stripID3Header_no_marker.
Qed.

Lemma stripID3Header_strips_witness :
  stripID3Header
    (read_buffer [x49; x44; x33; x03; x00; x00; x00; x00; x00; x02;
                  x10; x11; xff; xfb])
    None = Some [xff; xfb]
  ∧ stripID3Header (read_buffer [xff; xfb; x90; x00]) None
    = Some [xff; xfb; x90; x00].
Proof.
  split.
  - apply (proj1 (stripID3Header_strips
             (read_buffer [x49; x44; x33; x03; x00; x00; x00; x00; x00; x02;
                           x10; x11; xff; xfb]))
             eq_refl x00 x00 x00 x02 eq_refl eq_refl eq_refl eq_refl);
      vm_compute; congruence.
  - apply (proj2 (stripID3Header_strips (read_buffer [xff; xfb; x90; x00]))).
    + vm_compute. lia.
    + vm_compute. congruence.
Defined.

(** When [stripID3Header] panics, exactly. *)
Lemma stripID3Header_panics_iff buf :
  stripID3Header buf None = None ↔
  (slice_cap buf < 3)%nat ∨
  (take 3 (elems buf ++ spare buf) = ID3 ∧
   ((slice_len buf < 10)%nat ∨
    ∃ b6 b7 b8 b9,
      elems buf !! 6%nat = Some b6 ∧ elems buf !! 7%nat = Some b7 ∧
      elems buf !! 8%nat = Some b8 ∧ elems buf !! 9%nat = Some b9 ∧
      Z.of_nat (slice_len buf) < id3size b6 b7 b8 b9)).
Proof.
  destruct (decide (slice_cap buf < 3)%nat) as [Hcap|Hcap].
  { split; [by left|]. intros _. unfold stripID3Header. rewrite slice_to_3.
    by rewrite bool_decide_false by lia. }
  destruct (decide (take 3 (elems buf ++ spare buf) = ID3)) as [Hm|Hm].
  2:{ rewrite stripID3Header_no_marker by (done || lia).
      split; [done|]. intros [?|[? _]]; [lia|done]. }
  rewrite stripID3Header_marker by (done || lia).
  destruct (decide (slice_len buf < 10)%nat) as [Hlen|Hlen].
  { split; [intros _; right; split; [done|by left]|]. intros _.
    assert (elems buf !! 9%nat = None) as H9
      by (apply lookup_ge_None; unfold slice_len in Hlen; lia).
    destruct (elems buf !! 6%nat); [|done]. destruct (elems buf !! 7%nat); [|done].
    destruct (elems buf !! 8%nat); [|done]. by rewrite H9. }
  assert (∀ i, (i < 10)%nat → is_Some (elems buf !! i)) as Hl.
  { intros i Hi. apply lookup_lt_is_Some. unfold slice_len in Hlen. lia. }
  destruct (Hl 6%nat ltac:(lia)) as [b6 H6]. destruct (Hl 7%nat ltac:(lia)) as [b7 H7].
  destruct (Hl 8%nat ltac:(lia)) as [b8 H8]. destruct (Hl 9%nat ltac:(lia)) as [b9 H9].
  rewrite H6, H7, H8, H9. simpl. unfold slice_from.
  pose proof (id3size_range b6 b7 b8 b9) as Hr.
  case_bool_decide as Hb; simpl.
  - split; [done|]. intros [?|[_ [?|(c6 & c7 & c8 & c9 & ? & ? & ? & ? & Hlt)]]];
      [lia|lia|]. simplify_eq. lia.
  - split; [|done]. intros _. right. split; [done|]. right.
    exists b6, b7, b8, b9. split_and!; [done..|lia].
Qed.

(** C10, as stated, fails: for a file of fewer than 3 bytes no expression
    is out of range. [buf[:3]] is bounded by the capacity of the buffer,
    which for [ioutil.ReadAll] is at least 512, so the buffer is returned
    unchanged; shown for the empty file and for a 2-byte file. *)
Lemma stripID3Header_short_buffer_returns :
  (slice_len (read_buffer []) < 3)%nat ∧
  stripID3Header (read_buffer []) None = Some [] ∧
  (slice_len (read_buffer [x49; x44]) < 3)%nat ∧
  stripID3Header (read_buffer [x49; x44]) None = Some [x49; x44].
Proof. split_and!; vm_compute; (reflexivity || lia). Qed.

(** C10, amended. [stripID3Header] is not total: it panics exactly when the
    capacity of the buffer is below 3, or the first three bytes are the
    marker and the buffer is shorter than 10 bytes or than the computed tag
    length (the decoded size plus the 10-byte header); a buffer of fewer
    than 3 bytes panics only in these cases. It returns whenever the input
    has at least 3 bytes and any declared tag fits inside the input. *)
Theorem stripID3Header_partial :
  stripID3Header (read_buffer truncated_tag) None = None ∧
  (∀ buf,
     stripID3Header buf None = None ↔
     (slice_cap buf < 3)%nat ∨
     (take 3 (elems buf ++ spare buf) = ID3 ∧
      ((slice_len buf < 10)%nat ∨
       ∃ b6 b7 b8 b9,
         elems buf !! 6%nat = Some b6 ∧ elems buf !! 7%nat = Some b7 ∧
         elems buf !! 8%nat = Some b8 ∧ elems buf !! 9%nat = Some b9 ∧
         Z.of_nat (slice_len buf) < id3size b6 b7 b8 b9))) ∧
  (∀ buf,
     (3 ≤ slice_len buf)%nat →
     (take 3 (elems buf) = ID3 →
      ∃ b6 b7 b8 b9,
        elems buf !! 6%nat = Some b6 ∧ elems buf !! 7%nat = Some b7 ∧
        elems buf !! 8%nat = Some b8 ∧ elems buf !! 9%nat = Some b9 ∧
        id3size b6 b7 b8 b9 ≤ Z.of_nat (slice_len buf)) →
     is_Some (stripID3Header buf None)).
Proof.
  split_and!.
  - vm_compute. reflexivity.
  - apply stripID3Header_panics_iff.
  - intros buf Hlen Hfit.
    destruct (stripID3Header buf None) as [out|] eqn:Hs; [by eexists|].
    apply stripID3Header_panics_iff in Hs.
    destruct Hs as [Hcap|[Hm Hbad]].
    + unfold slice_cap, slice_len in *. lia.
    + rewrite take_3_full in Hm by done.
      destruct (Hfit Hm) as (b6 & b7 & b8 & b9 & H6 & H7 & H8 & H9 & Hle).
      destruct Hbad as [Hshort|(c6 & c7 & c8 & c9 & ? & ? & ? & ? & Hlt)].
      * apply lookup_lt_Some in H9. unfold slice_len in Hshort. lia.
      * simplify_eq. lia.
Qed.

(* ===================================================================== *)
(** * Theorems: pacing *)
(* ===================================================================== *)

(** One frame: within [int64] the wrap-arounds of [pace] are the identity. *)
Lemma pace_in_range cumwait duration cost :
  int_min ≤ duration - cost ≤ int_max →
  int_min ≤ cumwait + (duration - cost) ≤ int_max →
  pace cumwait duration cost =
    if bool_decide (cumwait + (duration - cost) > Second)
    then (0, [PSleep (cumwait + (duration - cost))])
    else (cumwait + (duration - cost), []).
Proof.
  intros H1 H2. unfold pace. rewrite (wrap_int_id (duration - cost)) by done.
  rewrite wrap_int_id by done.
  repeat case_bool_decide; try done; lia.
Qed.

Lemma pacing_spec_app acc l1 l2 :
  pacing_spec acc (l1 ++ l2) =
    (fst (pacing_spec (fst (pacing_spec acc l1)) l2),
     snd (pacing_spec acc l1) ++ snd (pacing_spec (fst (pacing_spec acc l1)) l2)).
Proof.
  revert acc. induction l1 as [|[[buf d] c] l1 IH]; intros acc; simpl.
  - by destruct (pacing_spec acc l2).
  - case_bool_decide.
    + rewrite IH. by destruct (pacing_spec 0 l1).
    + rewrite IH. by destruct (pacing_spec (acc + (d - c)) l1).
Qed.

Lemma durations_in_range_app acc l1 l2 :
  durations_in_range acc (l1 ++ l2) →
  durations_in_range acc l1 ∧
  durations_in_range (fst (pacing_spec acc l1)) l2.
Proof.
  revert acc. induction l1 as [|[[buf d] c] l1 IH]; intros acc; simpl.
  - done.
  - intros (H1 & H2 & H3). apply IH in H3 as [H3 H4].
    split; [done|]. case_bool_decide.
    + by destruct (pacing_spec 0 l1).
    + by destruct (pacing_spec (acc + (d - c)) l1).
Qed.

(** One stream: the inner loop is the specified pacing of its frames. *)
Lemma decode_stream_spec acc units :
  let frames := omap (λ u, match u with
                           | Decoded buf d c => Some (buf, d, c)
                           | _ => None
                           end) units in
  durations_in_range acc frames →
  decode_stream acc units = pacing_spec acc frames.
Proof.
  simpl. revert acc. induction units as [|u units IH]; intros acc; simpl; [done|].
  destruct u as [| |buf d c]; simpl; [apply IH..|].
  intros (H1 & H2 & H3). rewrite pace_in_range by done.
  case_bool_decide; rewrite IH by done.
  - by destruct (pacing_spec 0 _).
  - by destruct (pacing_spec (acc + (d - c)) _).
Qed.

Lemma decode_streams_spec acc streams :
  durations_in_range acc (frames_of streams) →
  decode_streams acc streams = pacing_spec acc (frames_of streams).
Proof.
  unfold frames_of. revert acc.
  induction streams as [|units streams IH]; intros acc; simpl; [done|].
  intros Hr. apply durations_in_range_app in Hr as [Hr1 Hr2].
  rewrite pacing_spec_app, decode_stream_spec by done.
  destruct (pacing_spec acc _) as [a1 e1] eqn:He. simpl in *.
  rewrite IH by done. by destruct (pacing_spec a1 _).
Qed.

(** What the specified pacing guarantees: the accumulator ends at or below
    one second, every sleep is longer than one second, and no slack is
    lost: the time slept plus what is still accumulated is the slack of all
    frames. *)
Lemma pacing_spec_balance acc frames :
  acc ≤ Second →
  fst (pacing_spec acc frames) ≤ Second ∧
  Forall (λ d, Second < d) (sleeps (snd (pacing_spec acc frames))) ∧
  sum_list (sleeps (snd (pacing_spec acc frames))) + fst (pacing_spec acc frames)
  = acc + total_slack frames.
Proof.
  revert acc. induction frames as [|[[buf d] c] frames IH]; intros acc Hacc.
  - simpl. split_and!; [done|constructor|unfold total_slack; simpl; lia].
  - simpl. case_bool_decide as Hb.
    + destruct (IH 0 ltac:(unfold Second; lia)) as (I1 & I2 & I3).
      destruct (pacing_spec 0 frames) as [a e]. simpl in *.
      split_and!; [done|constructor; [lia|done]|].
      unfold total_slack in *. simpl. lia.
    + destruct (IH (acc + (d - c)) ltac:(lia)) as (I1 & I2 & I3).
      destruct (pacing_spec (acc + (d - c)) frames) as [a e]. simpl in *.
      split_and!; [done|done|]. unfold total_slack in *. simpl. lia.
Qed.



(* ===================================================================== *)
(** * Theorems: discovery and shuffle *)
(* ===================================================================== *)

(** Induction on a file tree, with the hypothesis for every entry of a
    directory. *)
Lemma fsnode_tree_ind (P : fsnode → Prop) :
  (∀ name regular, P (FsFile name regular)) →
  (∀ name readErr entries, Forall P entries → P (FsDir name readErr entries)) →
  (∀ name err, P (FsNoStat name err)) →
  ∀ n, P n.
Proof.
  intros Hfile Hdir Hnostat. fix IH 1.
  intros [name regular|name readErr entries|name err].
  - apply Hfile.
  - apply Hdir. induction entries as [|e es IHes]; constructor.
    + apply IH.
    + apply IHes.
  - apply Hnostat.
Qed.

Section Discovery.
Variable Join : string → string → string.

(** The scan sends the visible matching files, in the order of the walk,
    and the callback never stops the walk. *)
Lemma walk_scan n : ∀ path files,
  walk Join scan_walkFn path n files = (files ++ mp3_files Join path n, None).
Proof.
  induction n as [name regular|name readErr entries IH|name err]
    using fsnode_tree_ind; intros path files; simpl.
  - destruct regular; simpl; [|by rewrite app_nil_r].
    destruct (HasSuffix (ToLower name) ".mp3"); simpl; [done|].
    by rewrite app_nil_r.
  - destruct readErr as [err|]; simpl; [by rewrite app_nil_r|].
    revert files. induction IH as [|e es He _ IHes]; intros files.
    + by rewrite app_nil_r.
    + rewrite He. rewrite IHes. by rewrite <- app_assoc.
  - by rewrite app_nil_r.
Qed.

Lemma scan_files_spec path root :
  scan_files Join path root = mp3_files Join path root.
Proof. unfold scan_files. by rewrite walk_scan. Qed.
End Discovery.

(** The swap of the shuffle keeps the files of the reservoir and adds the
    new one. *)
Lemma shuffle_insert (shuffled : list string) (i : nat) (x f : string) :
  shuffled !! i = Some x →
  <[i := f]> (shuffled ++ [x]) ≡ₚ f :: shuffled.
Proof.
  intros Hi. pose proof (lookup_lt_Some _ _ _ Hi) as Hlt.
  rewrite insert_app_l by done.
  rewrite <- (take_drop_middle shuffled i x Hi) at 2.
  rewrite insert_take_drop by done.
  rewrite <- !app_assoc. simpl.
  rewrite <- !Permutation_middle.
  by rewrite app_nil_r.
Qed.

(** The shuffle loop never indexes out of range, and loses or repeats no
    file. *)
Lemma shuffle_loop_perm files : ∀ timer rnd shuffled sent,
  ∃ shuffled' sent',
    shuffle_loop files timer rnd shuffled sent = Some (shuffled', sent') ∧
    sent' ++ shuffled' ≡ₚ sent ++ shuffled ++ files.
Proof.
  induction files as [|f files IH]; intros timer rnd shuffled sent; simpl.
  - exists shuffled, sent. by rewrite app_nil_r.
  - destruct (hd false timer).
    + destruct (IH (tl timer) rnd shuffled (sent ++ [f]))
        as (sh' & s' & -> & Hp).
      exists sh', s'. split; [done|]. rewrite Hp.
      rewrite <- !app_assoc. apply Permutation_app_head. simpl.
      apply Permutation_middle.
    + destruct shuffled as [|y shuffled].
      * destruct (IH (tl timer) rnd [f] sent) as (sh' & s' & -> & Hp).
        exists sh', s'. split; [done|]. by rewrite Hp.
      * set (l := y :: shuffled).
        set (i := (hd 0%nat rnd mod length l)%nat).
        assert (i < length l)%nat as Hi.
        { apply Nat.mod_upper_bound. simpl. lia. }
        destruct (lookup_lt_is_Some_2 l i Hi) as [x Hx]. rewrite Hx.
        destruct (IH (tl timer) (tl rnd) (<[i := f]> (l ++ [x])) sent)
          as (sh' & s' & -> & Hp).
        exists sh', s'. split; [done|]. rewrite Hp.
        apply Permutation_app_head. rewrite shuffle_insert by done.
        apply Permutation_middle.
Qed.

(** The scan of the sample tree: the timer never fires, the second file
    is swapped into the reservoir. *)
Example discover_once_sample :
  discover_once join_slash "/music" sample_tree [] [0%nat]
  = Some ["/music/sub/b.mp3"; "/music/a.MP3"].
Proof. reflexivity. Qed.


(* ===================================================================== *)
(** * Theorems: fan-out and eviction *)
(* ===================================================================== *)

Lemma sends_app tr1 tr2 : sends (tr1 ++ tr2) = (sends tr1 + sends tr2)%nat.
Proof. unfold sends. by rewrite filter_app, length_app. Qed.

Lemma recvs_app tr1 tr2 : recvs (tr1 ++ tr2) = (recvs tr1 + recvs tr2)%nat.
Proof. unfold recvs. by rewrite filter_app, length_app. Qed.

Lemma sent_to_app ch f tr1 tr2 :
  sent_to ch f (tr1 ++ tr2) = (sent_to ch f tr1 + sent_to ch f tr2)%nat.
Proof. unfold sent_to. by rewrite filter_app, length_app. Qed.

Lemma registered_app tr1 tr2 :
  registered (tr1 ++ tr2) =
  foldl (λ cl e, match e with
                 | BSubscribed q ch => <[q := ch]> cl
                 | BDelete q => delete q cl
                 | _ => cl
                 end) (registered tr1) tr2.
Proof. unfold registered. by rewrite foldl_app. Qed.

Lemma sends_cons e tr :
  sends (e :: tr) = ((if is_send e then 1 else 0) + sends tr)%nat.
Proof. unfold sends. by destruct e. Qed.

Lemma recvs_cons e tr :
  recvs (e :: tr) = ((if is_recv e then 1 else 0) + recvs tr)%nat.
Proof. unfold recvs. by destruct e. Qed.

Lemma sends_nil : sends [] = 0%nat.
Proof. done. Qed.

Lemma recvs_nil : recvs [] = 0%nat.
Proof. done. Qed.

(** How the [range] moves on: it ends when no id left to visit is
    registered, else it skips the ids that are gone and sends to the first
    one that is there. *)
Lemma advance_spec m f order :
  (advance m f order = (AtNextFrame, [BRoundEnd]) ∧
   ∀ k, k ∈ order → clients m !! k = None)
  ∨ (∃ skipped k ch rest,
       order = skipped ++ k :: rest ∧
       (∀ j, j ∈ skipped → clients m !! j = None) ∧
       clients m !! k = Some ch ∧
       advance m f order = (AtResult f rest, [BSend ch f])).
Proof.
  induction order as [|k order IH]; simpl.
  - left. split; [done|]. intros k Hk. by apply elem_of_nil in Hk.
  - destruct (clients m !! k) as [ch|] eqn:Hk.
    + right. exists [], k, ch, order. split_and!; [done| |done|done].
      intros j Hj. by apply elem_of_nil in Hj.
    + destruct IH as [[-> Hall]|(sk & k' & ch & rest & -> & Hsk & Hk' & ->)].
      * left. split; [done|]. intros j [->|Hj]%elem_of_cons; [done|by apply Hall].
      * right. exists (k :: sk), k', ch, rest. split_and!; [done| |done|done].
        intros j [->|Hj]%elem_of_cons; [done|by apply Hsk].
Qed.

Lemma run_app maxc s acts1 acts2 :
  run maxc s (acts1 ++ acts2) =
  '(s1, evs1) ← run maxc s acts1;
  '(s2, evs2) ← run maxc s1 acts2;
  Some (s2, evs1 ++ evs2).
Proof.
  revert s. induction acts1 as [|a acts1 IH]; intros s; simpl.
  - destruct (run maxc s acts2) as [[s2 evs2]|]; done.
  - destruct (step maxc s a) as [[s1 evs1]|]; simpl; [|done].
    rewrite IH. destruct (run maxc s1 acts1) as [[s2 evs2]|]; simpl; [|done].
    destruct (run maxc s2 acts2) as [[s3 evs3]|]; simpl; [|done].
    by rewrite app_assoc.
Qed.

Lemma sys_inv_start maxc res : sys_inv maxc res (start_system res) [].
Proof.
  constructor; simpl; try done.
  - intros k. rewrite lookup_empty. by intros [? ?].
  - intros c Hc. by apply elem_of_nil in Hc.
Qed.

(** An event that is neither a subscription nor a deletion leaves the
    registry of the trace as it is. *)
Lemma registered_snoc tr e :
  registered (tr ++ [e]) =
  match e with
  | BSubscribed q ch => <[q := ch]> (registered tr)
  | BDelete q => delete q (registered tr)
  | _ => registered tr
  end.
Proof. rewrite registered_app. by destruct e. Qed.

(** The invariant across the [range] moving on. *)
Lemma advance_inv maxc res m made pc0 f order tr pc evs :
  sys_inv maxc res (System m made pc0) tr →
  match pc0 with AtResult _ _ => False | _ => True end →
  NoDup order →
  advance m f order = (pc, evs) →
  sys_inv maxc res (System m made pc) (tr ++ evs).
Proof.
  intros [Hreg Hres Hkeys Hmade Hinj Hclosed Hcount Horder] Hpc Hnd Hadv.
  simpl in *.
  assert (sends tr = recvs tr) as Heq by (destruct pc0; [lia|done|lia]).
  destruct (advance_spec m f order)
    as [[Ha _]|(sk & k & ch & rest & -> & _ & Hk & Ha)];
    rewrite Ha in Hadv; simplify_eq.
  - constructor; simpl; try done.
    + by rewrite registered_snoc.
    + intros c [Hc|Hc]%elem_of_app; [by apply Hclosed|].
      by apply list_elem_of_singleton in Hc.
    + rewrite sends_app, recvs_app, !sends_cons, !recvs_cons, sends_nil, recvs_nil.
      simpl. lia.
  - constructor; simpl; try done.
    + by rewrite registered_snoc.
    + intros c [Hc|Hc]%elem_of_app; [by apply Hclosed|].
      by apply list_elem_of_singleton in Hc.
    + rewrite sends_app, recvs_app, !sends_cons, !recvs_cons, sends_nil, recvs_nil.
      simpl. lia.
    + apply NoDup_app in Hnd as (_ & _ & Hnd). by apply NoDup_cons in Hnd as [_ ?].
Qed.

(** Every step keeps the invariant. *)
Lemma step_inv maxc res s tr a s' evs :
  sys_inv maxc res s tr →
  step maxc s a = Some (s', evs) →
  sys_inv maxc res s' (tr ++ evs).
Proof.
  intros Hinv Hstep. destruct s as [m made pc].
  destruct a as [ch|f order|br|]; simpl in Hstep.
  - (* subscribe *)
    case_bool_decide as Hfresh; [done|].
    destruct (subscribe maxc m ch) as [[m' [q br]]|] eqn:Hs; [|done].
    simpl in Hstep. simplify_eq.
    destruct Hinv as [Hreg Hres Hkeys Hmade Hinj Hclosed Hcount Horder].
    simpl in *. apply subscribe_spec in Hs.
    destruct Hs as [(-> & -> & -> & _)|(Hq & -> & -> & Hfree & _)].
    + rewrite bool_decide_true by lia.
      constructor; simpl; try done.
      * by rewrite registered_snoc.
      * intros k c Hk. apply elem_of_union_r. by eapply Hmade.
      * intros c [Hc|Hc]%elem_of_app.
        -- destruct (Hclosed c Hc) as [? ?]. split; [by apply elem_of_union_r|done].
        -- by apply list_elem_of_singleton in Hc.
      * rewrite sends_app, recvs_app, !sends_cons, !recvs_cons, sends_nil, recvs_nil.
        simpl. lia.
    + rewrite bool_decide_false by lia.
      constructor; simpl; try done.
      * by rewrite registered_snoc, Hreg.
      * intros k. destruct (decide (q = k)) as [->|Hne]; [done|].
        rewrite lookup_insert_ne by done. apply Hkeys.
      * intros k c. destruct (decide (q = k)) as [->|Hne].
        -- rewrite lookup_insert_eq. intros [= <-].
           by apply elem_of_union_l, elem_of_singleton.
        -- rewrite lookup_insert_ne by done. intros Hk.
           apply elem_of_union_r. by eapply Hmade.
      * intros k1 k2 c.
        destruct (decide (k1 = q)) as [->|Hne1];
          destruct (decide (k2 = q)) as [->|Hne2]; [done| | |].
        -- rewrite lookup_insert_eq, lookup_insert_ne by congruence.
           intros [= <-] Hk2. by apply Hmade in Hk2.
        -- rewrite lookup_insert_eq, lookup_insert_ne by congruence.
           intros Hk1 [= <-]. by apply Hmade in Hk1.
        -- rewrite !lookup_insert_ne by congruence. apply Hinj.
      * intros c [Hc|Hc]%elem_of_app.
        -- destruct (Hclosed c Hc) as [Hm Hn]. split; [by apply elem_of_union_r|].
           intros k. destruct (decide (q = k)) as [->|Hne].
           ++ rewrite lookup_insert_eq. intros [= ->]. done.
           ++ rewrite lookup_insert_ne by done. apply Hn.
        -- by apply list_elem_of_singleton in Hc.
      * rewrite sends_app, recvs_app, !sends_cons, !recvs_cons, sends_nil, recvs_nil.
        simpl. lia.
  - (* a frame arrives *)
    destruct pc; try done. case_bool_decide as Hnd; [|done].
    destruct (advance m f order) as [pc' evs'] eqn:Ha. simplify_eq.
    by eapply advance_inv.
  - (* a report arrives *)
    destruct pc as [|f order|]; try done.
    destruct Hinv as [Hreg Hres Hkeys Hmade Hinj Hclosed Hcount Horder].
    simpl in *. destruct (err br) as [e|] eqn:He.
    + unfold evict in Hstep. destruct (clients m !! qid br) as [ch|] eqn:Hq;
        [|done]. simpl in Hstep. simplify_eq.
      constructor; simpl; try done.
      * rewrite registered_app. simpl. by rewrite Hreg.
      * intros k. destruct (decide (qid br = k)) as [->|Hne].
        -- rewrite lookup_delete_eq. by intros [? ?].
        -- rewrite lookup_delete_ne by done. apply Hkeys.
      * intros k c Hk. apply lookup_delete_Some in Hk as [_ Hk]. by eapply Hmade.
      * intros k1 k2 c [_ H1]%lookup_delete_Some [_ H2]%lookup_delete_Some.
        by eapply Hinj.
      * intros c [Hc|Hc]%elem_of_app.
        -- destruct (Hclosed c Hc) as [Hm Hn]. split; [done|].
           intros k [_ Hk]%lookup_delete_Some. by eapply Hn.
        -- apply elem_of_cons in Hc as [?|Hc]; [done|].
           apply elem_of_cons in Hc as [[= ->]|Hc].
           ++ split; [by eapply Hmade|].
              intros k [Hne Hk]%lookup_delete_Some.
              apply Hne. by eapply Hinj.
           ++ by apply list_elem_of_singleton in Hc.
      * rewrite sends_app, recvs_app, !sends_cons, !recvs_cons, sends_nil, recvs_nil.
        simpl. lia.
    + simplify_eq. constructor; simpl; try done.
      * by rewrite registered_snoc.
      * intros c [Hc|Hc]%elem_of_app; [by apply Hclosed|].
        by apply list_elem_of_singleton in Hc.
      * rewrite sends_app, recvs_app, !sends_cons, !recvs_cons, sends_nil, recvs_nil.
        simpl. lia.
  - (* the range moves on *)
    destruct pc as [| |f order]; try done.
    destruct (advance m f order) as [pc' evs'] eqn:Ha. simplify_eq.
    eapply advance_inv; [done|done| |done].
    by destruct Hinv.
Qed.

Lemma run_inv maxc res acts : ∀ s tr s' evs,
  sys_inv maxc res s tr →
  run maxc s acts = Some (s', evs) →
  sys_inv maxc res s' (tr ++ evs).
Proof.
  induction acts as [|a acts IH]; intros s tr s' evs Hinv Hrun; simpl in Hrun.
  - simplify_eq. by rewrite app_nil_r.
  - destruct (step maxc s a) as [[s1 evs1]|] eqn:Hst; [|done]. simpl in Hrun.
    destruct (run maxc s1 acts) as [[s2 evs2]|] eqn:Hr; [|done].
    simpl in Hrun. simplify_eq. rewrite app_assoc.
    eapply IH; [|done]. by eapply step_inv.
Qed.

Lemma run_start_inv maxc res acts s tr :
  run maxc (start_system res) acts = Some (s, tr) →
  sys_inv maxc res s tr.
Proof.
  intros Hrun. change tr with ([] ++ tr).
  eapply run_inv; [apply sys_inv_start|done].
Qed.

Lemma run_snoc maxc s acts a s' tr :
  run maxc s (acts ++ [a]) = Some (s', tr) →
  ∃ s0 tr0 evs,
    run maxc s acts = Some (s0, tr0) ∧
    step maxc s0 a = Some (s', evs) ∧ tr = tr0 ++ evs.
Proof.
  rewrite run_app. destruct (run maxc s acts) as [[s0 tr0]|]; simpl; [|done].
  destruct (step maxc s0 a) as [[s1 evs]|] eqn:Hst; simpl; [|done].
  intros [= <- <-]. exists s0, tr0, evs. by rewrite app_nil_r.
Qed.

(** Induction on the runs from the start of the system. *)
Lemma run_start_ind maxc res (P : system → list bcast_event → Prop) :
  P (start_system res) [] →
  (∀ s tr a s' evs,
     sys_inv maxc res s tr → P s tr →
     step maxc s a = Some (s', evs) → P s' (tr ++ evs)) →
  ∀ acts s tr, run maxc (start_system res) acts = Some (s, tr) → P s tr.
Proof.
  intros Hbase Hstep.
  assert (∀ acts s0 tr0 s evs,
            sys_inv maxc res s0 tr0 → P s0 tr0 →
            run maxc s0 acts = Some (s, evs) → P s (tr0 ++ evs)) as Hgen.
  { induction acts as [|a acts IH]; intros s0 tr0 s evs Hinv HP Hrun;
      simpl in Hrun.
    - simplify_eq. by rewrite app_nil_r.
    - destruct (step maxc s0 a) as [[s1 evs1]|] eqn:Hst; [|done].
      simpl in Hrun.
      destruct (run maxc s1 acts) as [[s2 evs2]|] eqn:Hr; [|done].
      simpl in Hrun. simplify_eq. rewrite app_assoc.
      eapply IH; [by eapply step_inv|by eapply Hstep|done]. }
  intros acts s tr Hrun. change tr with ([] ++ tr).
  eapply Hgen; [apply sys_inv_start|done|done].
Qed.

(** The events of one step. *)
Lemma step_events maxc s a s' evs :
  step maxc s a = Some (s', evs) →
  (∃ ch, evs = [BRefused ch]) ∨
  (∃ q ch, evs = [BSubscribed q ch]) ∨
  evs = [BRoundEnd] ∨
  (∃ k ch f, evs = [BSend ch f] ∧ clients (sys_mux s) !! k = Some ch ∧
             match sys_pc s with AtResult _ _ => False | _ => True end) ∨
  (∃ br, evs = [BRecv br] ∧ err br = None) ∨
  (∃ br ch, evs = [BRecv br; BClose ch; BDelete (qid br)] ∧
            err br ≠ None ∧ clients (sys_mux s) !! qid br = Some ch).
Proof.
  destruct s as [m made pc]. destruct a as [ch|f order|br|]; simpl.
  - case_bool_decide; [done|].
    destruct (subscribe maxc m ch) as [[m' [q b]]|]; [|done]. simpl.
    intros ?; simplify_eq. case_bool_decide; [left|right; left]; eauto.
  - destruct pc; try done. case_bool_decide; [|done].
    destruct (advance_spec m f order)
      as [[-> _]|(sk & k & ch & rest & _ & _ & Hk & ->)]; intros ?; simplify_eq.
    + by right; right; left.
    + right; right; right; left. by exists k, ch, f.
  - destruct pc as [|f order|]; try done. destruct (err br) as [e|] eqn:He.
    + unfold evict. destruct (clients m !! qid br) as [ch|] eqn:Hq; [|done].
      simpl. intros ?; simplify_eq. do 5 right. exists br, ch.
      split_and!; [done|by rewrite He|done].
    + intros ?; simplify_eq. do 4 right. left. by exists br.
  - destruct pc as [| |f order]; try done.
    destruct (advance_spec m f order)
      as [[-> _]|(sk & k & ch & rest & _ & _ & Hk & ->)]; intros ?; simplify_eq.
    + by right; right; left.
    + right; right; right; left. by exists k, ch, f.
Qed.

(** Where an event of a trace extended by a step lies. *)
Lemma snoc_split {A} (tr evs p s : list A) (e : A) :
  tr ++ evs = p ++ e :: s →
  (∃ l, tr = p ++ e :: l ∧ s = l ++ evs) ∨
  (∃ l, p = tr ++ l ∧ evs = l ++ e :: s).
Proof.
  intros H. apply app_eq_app in H as [l [[H1 H2]|[H1 H2]]].
  - destruct l as [|e' l'].
    + right. exists []. rewrite app_nil_r in H1. simpl in H2. subst.
      by rewrite app_nil_r.
    + left. simpl in H2. simplify_eq. by exists l'.
  - right. by exists l.
Qed.

(** When a frame is sent, every frame sent before has had its report. *)
Lemma run_serialized maxc res acts s tr :
  run maxc (start_system res) acts = Some (s, tr) →
  ∀ p c f rest, tr = p ++ BSend c f :: rest → sends p = recvs p.
Proof.
  revert acts s tr.
  apply (run_start_ind maxc res (λ s tr, ∀ p c f rest,
           tr = p ++ BSend c f :: rest → sends p = recvs p)).
  - intros p c f rest H. by destruct p.
  - intros s tr a s' evs Hinv IH Hstep p c f rest Hsplit.
    apply snoc_split in Hsplit as [(l & -> & ->)|(l & -> & Hevs)].
    + by eapply IH.
    + apply step_events in Hstep
        as [(ch & ->)|[(q & ch & ->)|[->|[(k & ch & g & -> & Hk & Hpc)|
           [(br & -> & He)|(br & ch & -> & He & Hq)]]]]];
        destruct l as [|? [|? [|? l']]]; simpl in Hevs; simplify_eq;
        try (by destruct l').
      rewrite app_nil_r. pose proof (inv_count _ _ _ _ Hinv) as Hc.
      destruct (sys_pc s); [lia|done|lia].
Qed.

(** A failure report is followed at once by the closing of the channel
    registered under its id and by the removal of the id. *)
Lemma run_evicts maxc res acts s tr :
  run maxc (start_system res) acts = Some (s, tr) →
  ∀ p br rest, tr = p ++ BRecv br :: rest → err br ≠ None →
    ∃ c rest', rest = BClose c :: BDelete (qid br) :: rest' ∧
               registered p !! qid br = Some c.
Proof.
  revert acts s tr.
  apply (run_start_ind maxc res (λ s tr, ∀ p br rest,
           tr = p ++ BRecv br :: rest → err br ≠ None →
           ∃ c rest', rest = BClose c :: BDelete (qid br) :: rest' ∧
                      registered p !! qid br = Some c)).
  - intros p br rest H. by destruct p.
  - intros s tr a s' evs Hinv IH Hstep p br rest Hsplit Herr.
    apply snoc_split in Hsplit as [(l & -> & ->)|(l & -> & Hevs)].
    + destruct (IH p br l eq_refl Herr) as (c & rest' & -> & Hc).
      by exists c, (rest' ++ evs).
    + apply step_events in Hstep
        as [(ch & ->)|[(q & ch & ->)|[->|[(k & ch & g & -> & Hk & Hpc)|
           [(br' & -> & He)|(br' & ch & -> & He & Hq)]]]]];
        destruct l as [|? [|? [|? l']]]; simpl in Hevs; simplify_eq;
        try (by destruct l').
      exists ch, []. split; [done|]. rewrite app_nil_r.
      by rewrite <- (inv_registered _ _ _ _ Hinv).
Qed.

(** Nothing is sent on a channel after it has been closed. *)
Lemma run_closed_silent maxc res acts s tr :
  run maxc (start_system res) acts = Some (s, tr) →
  ∀ p c rest f, tr = p ++ BClose c :: rest → BSend c f ∉ rest.
Proof.
  revert acts s tr.
  apply (run_start_ind maxc res (λ s tr, ∀ p c rest f,
           tr = p ++ BClose c :: rest → BSend c f ∉ rest)).
  - intros p c rest f H. by destruct p.
  - intros s tr a s' evs Hinv IH Hstep p c rest f Hsplit.
    apply snoc_split in Hsplit as [(l & Htr & ->)|(l & -> & Hevs)].
    + intros [Hin|Hin]%elem_of_app; [by eapply IH|].
      assert (BClose c ∈ tr) as Hcl.
      { rewrite Htr. apply elem_of_app. right. by left. }
      destruct (inv_closed _ _ _ _ Hinv c Hcl) as [_ Hno].
      apply step_events in Hstep
        as [(ch & ->)|[(q & ch & ->)|[->|[(k & ch & g & -> & Hk & Hpc)|
           [(br & -> & He)|(br & ch & -> & He & Hq)]]]]];
        repeat (apply elem_of_cons in Hin as [?|Hin]; simplify_eq);
        try by apply elem_of_nil in Hin.
      by eapply Hno.
    + apply step_events in Hstep
        as [(ch & ->)|[(q & ch & ->)|[->|[(k & ch & g & -> & Hk & Hpc)|
           [(br & -> & He)|(br & ch & -> & He & Hq)]]]]];
        destruct l as [|? [|? [|? l']]]; simpl in Hevs; simplify_eq;
        try (by destruct l').
      intros Hin. apply list_elem_of_singleton in Hin. done.
Qed.

Lemma sent_to_snoc ch f tr e :
  sent_to ch f (tr ++ [e]) =
  (sent_to ch f tr + if is_send_to ch f e then 1 else 0)%nat.
Proof.
  rewrite sent_to_app. f_equal. unfold sent_to. rewrite filter_cons.
  by destruct (is_send_to ch f e).
Qed.

(** The [range] moving on keeps the invariant of the round. *)
Lemma advance_round m f order tr pc evs k ch :
  NoDup order →
  (∀ k1 k2 c, clients m !! k1 = Some c → clients m !! k2 = Some c → k1 = k2) →
  clients m !! k = Some ch →
  (k ∈ order ∧ sent_to ch f tr = 0%nat) ∨ ((k ∉ order) ∧ sent_to ch f tr = 1%nat) →
  advance m f order = (pc, evs) →
  match pc with
  | AtNextFrame => sent_to ch f (tr ++ evs) = 1%nat
  | AtResult g order' | AtLoopHead g order' =>
      g = f ∧
      ((k ∈ order' ∧ sent_to ch f (tr ++ evs) = 0%nat) ∨
       ((k ∉ order') ∧ sent_to ch f (tr ++ evs) = 1%nat))
  end.
Proof.
  intros Hnd Hinj Hk Hcnt Hadv.
  destruct (advance_spec m f order)
    as [[Ha Hall]|(sk & k' & ch' & rest & -> & Hsk & Hk' & Ha)];
    rewrite Ha in Hadv; simplify_eq.
  - rewrite sent_to_snoc. simpl.
    destruct Hcnt as [[Hin _]|[_ ->]]; [|done].
    apply Hall in Hin. congruence.
  - split; [done|]. rewrite sent_to_snoc. simpl.
    apply NoDup_app in Hnd as (_ & _ & Hnd).
    apply NoDup_cons in Hnd as [Hk'rest _].
    destruct (decide (k = k')) as [->|Hne].
    + assert (ch' = ch) as -> by congruence.
      rewrite bool_decide_true by done.
      destruct Hcnt as [[_ ->]|[Hnin _]].
      * right. split; [done|lia].
      * exfalso. apply Hnin. apply elem_of_app. right. by left.
    + assert (ch' ≠ ch) as Hch.
      { intros ->. apply Hne. by eapply Hinj. }
      rewrite bool_decide_false by (intros [? _]; done).
      destruct Hcnt as [[Hin ->]|[Hnin ->]].
      * left. split; [|lia].
        apply elem_of_app in Hin as [Hin|Hin].
        -- apply Hsk in Hin. congruence.
        -- apply elem_of_cons in Hin as [?|?]; done.
      * right. split; [|lia]. intros Hin. apply Hnin.
        apply elem_of_app. right. by right.
Qed.

(** The invariant of the round holds across every step but the arrival of
    a new frame. *)
Lemma step_round maxc res f k ch s tr0 tr a s' evs :
  sys_inv maxc res s tr0 →
  round_inv f k ch s tr →
  is_frame_action a = false →
  step maxc s a = Some (s', evs) →
  round_inv f k ch s' (tr ++ evs).
Proof.
  intros Hinv [Hmade HR] Hnf Hstep. destruct s as [m made pc].
  destruct Hinv as [Hreg Hres Hkeys Hmd Hinj Hclosed Hcount Horder].
  destruct a as [c|g order|br|]; simpl in *; [|done| |].
  - (* subscribe *)
    case_bool_decide as Hfresh; [done|].
    destruct (subscribe maxc m c) as [[m' [q b]]|] eqn:Hs; [|done].
    simpl in Hstep. simplify_eq. split; simpl.
    { by apply elem_of_union_r. }
    assert (sent_to ch f (tr ++ [if bool_decide (q < 0) then BRefused c
                                 else BSubscribed q c]) = sent_to ch f tr) as ->.
    { rewrite sent_to_snoc. case_bool_decide; simpl; lia. }
    apply subscribe_spec in Hs.
    destruct Hs as [(_ & _ & -> & _)|(_ & _ & -> & _ & _)]; [done|].
    simpl. intros Hk. apply HR.
    destruct (decide (q = k)) as [->|Hne].
    + rewrite lookup_insert_eq in Hk. congruence.
    + by rewrite lookup_insert_ne in Hk.
  - (* a report *)
    destruct pc as [|g order|]; try done.
    destruct (err br) as [e|].
    + unfold evict in Hstep.
      destruct (clients m !! qid br) as [c|]; [|done].
      simpl in Hstep. simplify_eq. split; [done|]. simpl.
      intros [_ Hk]%lookup_delete_Some.
      rewrite sent_to_app. change (sent_to ch f [_; _; _]) with 0%nat.
      rewrite Nat.add_0_r. by apply HR.
    + simplify_eq. split; [done|]. simpl. intros Hk.
      rewrite sent_to_app. change (sent_to ch f [_]) with 0%nat.
      rewrite Nat.add_0_r. by apply HR.
  - (* the range moves on *)
    destruct pc as [| |g order]; try done.
    destruct (advance m g order) as [pc' evs'] eqn:Ha. simplify_eq.
    split; [done|]. simpl. intros Hk. destruct (HR Hk) as [-> Hcnt].
    by eapply advance_round.
Qed.

Lemma run_round maxc res f k ch mid : ∀ s tr0 tr s' evs,
  Forall (λ a, is_frame_action a = false) mid →
  sys_inv maxc res s tr0 →
  round_inv f k ch s tr →
  run maxc s mid = Some (s', evs) →
  round_inv f k ch s' (tr ++ evs).
Proof.
  induction mid as [|a mid IH]; intros s tr0 tr s' evs Hnf Hinv HR Hrun;
    simpl in Hrun.
  - simplify_eq. by rewrite app_nil_r.
  - apply Forall_cons in Hnf as [Ha Hnf].
    destruct (step maxc s a) as [[s1 evs1]|] eqn:Hst; [|done]. simpl in Hrun.
    destruct (run maxc s1 mid) as [[s2 evs2]|] eqn:Hr; [|done].
    simpl in Hrun. simplify_eq. rewrite app_assoc.
    eapply (IH s1 (tr0 ++ evs1)); [done|by eapply step_inv| |done].
    by eapply step_round.
Qed.

(** In a whole round, an endpoint that is registered when the round begins
    and is still registered when it ends is sent the frame exactly once. *)
Lemma round_covers maxc res pre f order mid s0 tr0 s1 tr1 :
  run maxc (start_system res) pre = Some (s0, tr0) →
  run maxc s0 (AFrame f order :: mid) = Some (s1, tr1) →
  Forall (λ a, is_frame_action a = false) mid →
  sys_pc s1 = AtNextFrame →
  (∀ k, is_Some (clients (sys_mux s0) !! k) → k ∈ order) →
  ∀ k ch, clients (sys_mux s0) !! k = Some ch →
          clients (sys_mux s1) !! k = Some ch →
          sent_to ch f tr1 = 1%nat.
Proof.
  intros Hpre Hrun Hnf Hpc Hcover k ch Hk0 Hk1.
  apply run_start_inv in Hpre as Hinv0.
  change (AFrame f order :: mid) with ([AFrame f order] ++ mid) in Hrun.
  rewrite run_app in Hrun.
  destruct (run maxc s0 [AFrame f order]) as [[sa eva]|] eqn:Hfirst; [|done].
  simpl in Hrun.
  destruct (run maxc sa mid) as [[sb evb]|] eqn:Hmid; [|done].
  simpl in Hrun. simplify_eq.
  assert (sys_inv maxc res sa (tr0 ++ eva)) as Hinva by (by eapply run_inv).
  assert (round_inv f k ch sa ([] ++ eva)) as HRa.
  { simpl in Hfirst. destruct s0 as [m made pc]. simpl in *.
    destruct pc; try done. case_bool_decide as Hnd; [|done].
    destruct (advance m f order) as [pc' evs'] eqn:Ha.
    simpl in Hfirst. simplify_eq. rewrite app_nil_r. split; simpl.
    - by eapply (inv_made _ _ _ _ Hinv0).
    - intros _.
      apply (advance_round m f order [] pc' evs' k ch); [done| |done| |done].
      + apply (inv_inj _ _ _ _ Hinv0).
      + left. split; [|done]. apply Hcover. by rewrite Hk0. }
  pose proof (run_round _ _ _ _ _ _ _ _ _ _ _ Hnf Hinva HRa Hmid) as [_ HRb].
  specialize (HRb Hk1). rewrite Hpc in HRb. done.
Qed.

(** A report is only received while a frame sent awaits it. *)
Lemma run_recv_pending maxc res acts s tr :
  run maxc (start_system res) acts = Some (s, tr) →
  ∀ p br rest, tr = p ++ BRecv br :: rest → sends p = (recvs p + 1)%nat.
Proof.
  revert acts s tr.
  apply (run_start_ind maxc res (λ s tr, ∀ p br rest,
           tr = p ++ BRecv br :: rest → sends p = (recvs p + 1)%nat)).
  - intros p br rest H. by destruct p.
  - intros s tr a s' evs Hinv IH Hstep p br rest Hsplit.
    apply snoc_split in Hsplit as [(l & -> & ->)|(l & -> & Hevs)].
    + by eapply IH.
    + pose proof (inv_count _ _ _ _ Hinv) as Hc.
      assert (l = [] ∧ ∃ f o, sys_pc s = AtResult f o) as [-> (f & o & Hpc)].
      { destruct s as [m made pc].
        destruct a as [ch|f order|br'|]; simpl in Hstep.
        - case_bool_decide; [done|].
          destruct (subscribe maxc m ch) as [[m' [q b]]|]; [|done].
          simpl in Hstep. injection Hstep as <- <-.
          destruct l as [|? [|? l']]; simpl in Hevs; case_bool_decide;
            simplify_eq.
        - destruct pc; try done. case_bool_decide; [|done].
          destruct (advance_spec m f order)
            as [[Ha _]|(sk & k & ch & rs & _ & _ & _ & Ha)];
            rewrite Ha in Hstep; injection Hstep as <- <-;
            destruct l as [|? [|? l']]; simpl in Hevs; simplify_eq.
        - destruct pc as [|f o|]; try done. destruct (err br').
          + destruct (evict m (qid br')) as [[m' ch]|]; [|done].
            simpl in Hstep. injection Hstep as <- <-.
            destruct l as [|? [|? [|? l']]]; simpl in Hevs; simplify_eq;
              try (by destruct l'). eauto.
          + injection Hstep as <- <-.
            destruct l as [|? [|? l']]; simpl in Hevs; simplify_eq. eauto.
        - destruct pc as [| |f o]; try done.
          destruct (advance_spec m f o)
            as [[Ha _]|(sk & k & ch & rs & _ & _ & _ & Ha)];
            rewrite Ha in Hstep; injection Hstep as <- <-;
            destruct l as [|? [|? l']]; simpl in Hevs; simplify_eq. }
      rewrite app_nil_r. rewrite Hpc in Hc. done.
Qed.

(** A frame is only sent on a channel that is registered. *)
Lemma run_send_registered maxc res acts s tr :
  run maxc (start_system res) acts = Some (s, tr) →
  ∀ p c f rest, tr = p ++ BSend c f :: rest → ∃ k, registered p !! k = Some c.
Proof.
  revert acts s tr.
  apply (run_start_ind maxc res (λ s tr, ∀ p c f rest,
           tr = p ++ BSend c f :: rest → ∃ k, registered p !! k = Some c)).
  - intros p c f rest H. by destruct p.
  - intros s tr a s' evs Hinv IH Hstep p c f rest Hsplit.
    apply snoc_split in Hsplit as [(l & -> & ->)|(l & -> & Hevs)].
    + by eapply IH.
    + apply step_events in Hstep
        as [(ch & ->)|[(q & ch & ->)|[->|[(k & ch & g & -> & Hk & Hpc)|
           [(br & -> & He)|(br & ch & -> & He & Hq)]]]]];
        destruct l as [|? [|? [|? l']]]; simpl in Hevs; simplify_eq;
        try (by destruct l').
      exists k. rewrite app_nil_r.
      by rewrite <- (inv_registered _ _ _ _ Hinv).
Qed.

(** C5. In every run of the system: a frame is sent to a registered
    endpoint only when each frame sent before has had its report, and a
    report is received only while one frame sent awaits it, so sends and
    reports alternate one for one; a failure report is followed at once, and
    before any further send, by the closing of the channel registered under
    the id of the report and by the removal of that id; and in a whole
    round every endpoint that is registered when the round begins and is
    still registered when it ends is sent the frame exactly once. *)
Theorem fanout_serialized maxc res acts s tr :
  run maxc (start_system res) acts = Some (s, tr) →
  (∀ p c f rest, tr = p ++ BSend c f :: rest →
     sends p = recvs p ∧ ∃ k, registered p !! k = Some c) ∧
  (∀ p br rest, tr = p ++ BRecv br :: rest → sends p = (recvs p + 1)%nat) ∧
  (∀ p br rest, tr = p ++ BRecv br :: rest → err br ≠ None →
     ∃ c rest',
       rest = BClose c :: BDelete (qid br) :: rest' ∧
       registered p !! qid br = Some c ∧
       registered (p ++ [BRecv br; BClose c; BDelete (qid br)]) !! qid br = None) ∧
  (∀ pre f order mid s0 tr0,
     acts = pre ++ AFrame f order :: mid →
     run maxc (start_system res) pre = Some (s0, tr0) →
     Forall (λ a, is_frame_action a = false) mid →
     sys_pc s = AtNextFrame →
     (∀ k, is_Some (clients (sys_mux s0) !! k) → k ∈ order) →
     ∀ k ch, clients (sys_mux s0) !! k = Some ch →
             clients (sys_mux s) !! k = Some ch →
             sent_to ch f (drop (length tr0) tr) = 1%nat).
Proof.
  intros Hrun. split_and!.
  - intros p c f rest Htr. split.
    + by eapply run_serialized.
    + by eapply run_send_registered.
  - by eapply run_recv_pending.
  - intros p br rest Htr Herr.
    destruct (run_evicts _ _ _ _ _ Hrun p br rest Htr Herr) as (c & rest' & -> & Hc).
    exists c, rest'. split_and!; [done|done|].
    rewrite registered_app. simpl. by rewrite lookup_delete_eq.
  - intros pre f order mid s0 tr0 -> Hpre Hnf Hpc Hcover k ch Hk0 Hk1.
    remember (AFrame f order :: mid) as round eqn:Hround.
    rewrite run_app, Hpre in Hrun. simpl in Hrun.
    destruct (run maxc s0 round) as [[s1 tr1]|] eqn:Hrest; [|done].
    simpl in Hrun. simplify_eq. rewrite drop_app_length.
    by eapply round_covers.
Qed.

Lemma fanout_serialized_witness :
  ∃ s tr,
    run 42 (start_system 1)
      [ASubscribe 10; ASubscribe 11; AFrame [x01] [0; 1];
       AReport (BroadcastResult 0 None); AAdvance;
       AReport (BroadcastResult 1 (Some (Err "timeout: 4s"))); AAdvance]
    = Some (s, tr) ∧
    tr = [BSubscribed 0 10; BSubscribed 1 11; BSend 10 [x01];
          BRecv (BroadcastResult 0 None); BSend 11 [x01];
          BRecv (BroadcastResult 1 (Some (Err "timeout: 4s")));
          BClose 11; BDelete 1; BRoundEnd] ∧
    ∀ p c f rest, tr = p ++ BSend c f :: rest →
      sends p = recvs p ∧ ∃ k, registered p !! k = Some c.
Proof.
  eexists _, _. split; [reflexivity|]. split; [reflexivity|].
  apply (proj1 (fanout_serialized 42 1
    [ASubscribe 10; ASubscribe 11; AFrame [x01] [0; 1];
     AReport (BroadcastResult 0 None); AAdvance;
     AReport (BroadcastResult 1 (Some (Err "timeout: 4s"))); AAdvance]
    _ _ eq_refl)).
Defined.

(** C6. In every run, no frame is sent on a channel after it has been
    closed; and when the run ends with the eviction of an endpoint, its id
    is free, and a [subscribe] called next succeeds with the smallest free
    id, which is at most the id just freed and is that id when all smaller
    ids are taken. *)
Theorem evicted_is_silent_and_free maxc res acts s tr :
  run maxc (start_system res) acts = Some (s, tr) →
  (∀ p c rest f, tr = p ++ BClose c :: rest → BSend c f ∉ rest) ∧
  (∀ acts' br,
     acts = acts' ++ [AReport br] → err br ≠ None →
     clients (sys_mux s) !! qid br = None ∧
     ∀ ch, ch ∉ sys_made s →
       ∃ s' q,
         step maxc s (ASubscribe ch) = Some (s', [BSubscribed q ch]) ∧
         0 ≤ q ≤ qid br ∧
         clients (sys_mux s') !! q = Some ch ∧
         ((∀ i, 0 ≤ i < qid br → is_Some (clients (sys_mux s) !! i)) →
          q = qid br)).
Proof.
  intros Hrun. split.
  - by eapply run_closed_silent.
  - intros acts' br -> Herr.
    apply run_snoc in Hrun as (s0 & tr0 & evs & Hpre & Hst & ->).
    apply run_start_inv in Hpre as Hinv0.
    destruct s0 as [m made pc]. simpl in Hst.
    destruct pc as [|f order|]; try done.
    destruct (err br) as [e|]; [|done].
    unfold evict in Hst. destruct (clients m !! qid br) as [c|] eqn:Hq; [|done].
    simpl in Hst. simplify_eq. simpl.
    pose proof (inv_keys _ _ _ _ Hinv0 (qid br)) as Hrange. simpl in Hrange.
    rewrite Hq in Hrange. specialize (Hrange ltac:(by eexists)).
    split; [apply lookup_delete_eq|].
    intros ch Hfresh. rewrite bool_decide_false by done.
    destruct (subscribe_total maxc (Mux (delete (qid br) (clients m)) (result m)) ch)
      as [[m' [q b]] Hs].
    rewrite Hs. simpl. apply subscribe_spec in Hs. simpl in Hs.
    destruct Hs as [(_ & _ & _ & Hall)|(Hq0 & _ & -> & Hfree & Hocc)].
    + specialize (Hall (qid br) Hrange). rewrite lookup_delete_eq in Hall.
      by destruct Hall.
    + assert (q ≤ qid br) as Hle.
      { destruct (decide (q ≤ qid br)) as [|Hgt]; [done|].
        specialize (Hocc (qid br) ltac:(lia)).
        rewrite lookup_delete_eq in Hocc. by destruct Hocc. }
      rewrite bool_decide_false by lia.
      eexists _, q. split_and!; [done|lia|lia|by simpl; rewrite lookup_insert_eq|].
      intros Hbelow. destruct (decide (q = qid br)) as [|Hne]; [done|].
      specialize (Hbelow q ltac:(lia)). rewrite Hfree in Hbelow.
      by destruct Hbelow.
Qed.

Lemma evicted_is_silent_and_free_witness :
  ∃ s tr,
    run 42 (start_system 1)
      [ASubscribe 10; ASubscribe 11; AFrame [x01] [1; 0];
       AReport (BroadcastResult 1 (Some (Err "timeout: 4s")))]
    = Some (s, tr) ∧
    tr = [BSubscribed 0 10; BSubscribed 1 11; BSend 11 [x01];
          BRecv (BroadcastResult 1 (Some (Err "timeout: 4s")));
          BClose 11; BDelete 1] ∧
    ∀ p c rest f, tr = p ++ BClose c :: rest → BSend c f ∉ rest.
Proof.
  eexists _, _. split; [reflexivity|]. split; [reflexivity|].
  apply (proj1 (evicted_is_silent_and_free 42 1
    [ASubscribe 10; ASubscribe 11; AFrame [x01] [1; 0];
     AReport (BroadcastResult 1 (Some (Err "timeout: 4s")))]
    _ _ eq_refl)).
Defined.

(* ===================================================================== *)
(** * Theorems: the client session *)
(* ===================================================================== *)



Lemma stream_loop_reports q frames :
  reports (stream_loop q frames)
  = map (λ fo, BroadcastResult q (outcome_error (snd fo))) (served frames).
Proof.
  induction frames as [|[buf o] frames IH]; simpl; [done|].
  destruct o as [[|n e]|n]; simpl; [|done..].
  unfold reports in *. simpl. by rewrite IH.
Qed.

Lemma body_written_cons e evs :
  body_written (e :: evs)
  = match e with SWrite p => p | _ => [] end ++ body_written evs.
Proof. by destruct e. Qed.

Lemma stream_loop_body q frames :
  body_written (stream_loop q frames) = concat (map outcome_bytes (served frames)).
Proof.
  induction frames as [|[buf o] frames IH]; simpl; [done|].
  destruct o as [[|n e]|n]; rewrite !body_written_cons; simpl; [|done..].
  by rewrite IH.
Qed.





(** The trace of an accepted session whose stub went out: the status, the
    header fields, the stub, then the loop. *)
Lemma ServeHTTP_accepted now q br frames :
  0 ≤ q →
  ServeHTTP now (q, br) CopyOk frames =
  [SWriteHeader StatusOK;
   SSetHeader "Date" now;
   SSetHeader "Connection" "Keep-Alive";
   SSetHeader "Cache-Control" "no-cache";
   SSetHeader "Content-Type" "audio/mpeg";
   SSetHeader "Server" "BoringStreamer/4.0";
   SWrite id3_stub] ++ stream_loop q frames.
Proof.
  intros Hq. unfold ServeHTTP. simpl. by rewrite bool_decide_false by lia.
Qed.






(* ===================================================================== *)
(** * Further properties: the registry *)
(* ===================================================================== *)

(** A registry whose ids lie in [0 .. b] has at most [b + 1] entries. *)
Lemma size_le_range (cl : gmap Z positive) (b : Z) :
  0 ≤ b →
  (∀ k, is_Some (cl !! k) → 0 ≤ k ≤ b) →
  (size cl ≤ Z.to_nat (b + 1))%nat.
Proof.
  intros Hb Hk.
  set (R := list_to_set (seqZ 0 (b + 1)) : gset Z).
  assert (size R = Z.to_nat (b + 1)) as <-.
  { unfold R. rewrite size_list_to_set by apply NoDup_seqZ.
    by rewrite length_seqZ. }
  rewrite <- (size_dom (D := gset Z) cl). apply subseteq_size.
  intros k Hin. unfold R. rewrite elem_of_list_to_set, elem_of_seqZ.
  apply elem_of_dom in Hin. specialize (Hk k Hin). lia.
Qed.

(** X1. For a maximum of at least 1 and every registry, [subscribe]
    returns: either the sentinel [(-1, nil)], when all ids below the maximum
    are taken, the registry being left as it is; or the smallest free id,
    below the maximum, under which it installs the endpoint, with the
    result channel of the registry. *)
Theorem subscribe_smallest_free_or_refuses maxc m ch :
  1 ≤ maxc ≤ int_max →
  ∃ m' q br,
    subscribe maxc m ch = Some (m', (q, br)) ∧
    ((q = -1 ∧ br = None ∧ m' = m ∧
      ∀ i, 0 ≤ i < maxc → is_Some (clients m !! i))
     ∨ (0 ≤ q < maxc ∧ br = Some (result m) ∧
        clients m !! q = None ∧
        (∀ i, 0 ≤ i < q → is_Some (clients m !! i)) ∧
        m' = Mux (<[q := ch]> (clients m)) (result m))).
Proof.
  intros Hmax. destruct (subscribe_total maxc m ch) as [[m' [q br]] Hs].
  exists m', q, br. split; [done|].
  apply subscribe_spec in Hs. rewrite id_bound_pos in Hs by done.
  destruct Hs as [(-> & -> & -> & Hocc)|(Hq & -> & -> & Hfree & Hocc)].
  - left. split_and!; [done..|]. intros i Hi. apply Hocc. lia.
  - right. split_and!; [lia|lia|done..].
Qed.

Lemma subscribe_smallest_free_or_refuses_witness :
  ∃ m' q br,
    subscribe 4 (Mux {[ 0 := 5%positive; 2 := 6%positive ]} 1) 7
    = Some (m', (q, br)) ∧ (q = -1 ∨ 0 ≤ q < 4).
Proof.
  destruct (subscribe_smallest_free_or_refuses 4
              (Mux {[ 0 := 5%positive; 2 := 6%positive ]} 1) 7
              ltac:(unfold int_max; lia))
    as (m' & q & br & Hs & [(Hq & _)|(Hq & _)]).
  - exists m', q, br. split; [exact Hs|by left].
  - exists m', q, br. split; [exact Hs|by right].
Defined.

(** X2. A registry built by [subscribe] and [evict] never holds more
    endpoints than the ids the search can reach; for a maximum of at least
    1 that is never more than [maxConnections] endpoints. *)
Theorem registry_never_exceeds_max maxc res ops m :
  reg_run maxc (start_mux res) ops = Some m →
  Z.of_nat (size (clients m)) ≤ id_bound maxc + 1 ∧
  (1 ≤ maxc ≤ int_max → Z.of_nat (size (clients m)) ≤ maxc).
Proof.
  intros Hrun. destruct (reg_run_start_keys _ _ _ _ Hrun) as [Hk _].
  assert (0 ≤ id_bound maxc) as Hb by (unfold id_bound; lia).
  pose proof (size_le_range _ _ Hb Hk) as Hsz.
  split; [lia|]. intros Hmax. rewrite id_bound_pos in Hsz by done. lia.
Qed.

Lemma registry_never_exceeds_max_witness :
  ∃ m,
    reg_run 2 (start_mux 1)
      [OpSubscribe 5; OpSubscribe 6; OpSubscribe 7; OpEvict 0; OpSubscribe 8]
    = Some m ∧
    Z.of_nat (size (clients m)) ≤ id_bound 2 + 1 ∧
    (1 ≤ 2 ≤ int_max → Z.of_nat (size (clients m)) ≤ 2).
Proof.
  eexists. split; [reflexivity|].
  apply (registry_never_exceeds_max 2 1
           [OpSubscribe 5; OpSubscribe 6; OpSubscribe 7; OpEvict 0; OpSubscribe 8]).
  reflexivity.
Defined.

(** X3. Evicting the id that a successful [subscribe] has just returned
    closes the channel that was subscribed and gives back the registry as
    it was before. *)
Theorem subscribe_then_evict_restores maxc m ch m' q br :
  subscribe maxc m ch = Some (m', (q, br)) →
  q ≠ -1 →
  evict m' q = Some (m, ch).
Proof.
  intros Hs Hq. apply subscribe_spec in Hs.
  destruct Hs as [(-> & _)|(_ & _ & -> & Hfree & _)]; [done|].
  unfold evict. simpl. rewrite lookup_insert_eq. simpl.
  rewrite delete_insert_id by done. by destruct m.
Qed.

Lemma subscribe_then_evict_restores_witness :
  evict (Mux {[ 0 := 5%positive; 1 := 7%positive ]} 1) 1
  = Some (Mux {[ 0 := 5%positive ]} 1, 7%positive).
Proof.
  apply (subscribe_then_evict_restores 42 (Mux {[ 0 := 5%positive ]} 1) 7
           (Mux {[ 0 := 5%positive; 1 := 7%positive ]} 1) 1 (Some 1%positive)).
  - reflexivity.
  - lia.
Defined.

(** X4. [subscribe] never removes or replaces an endpoint: every id that
    was registered keeps its channel, and the registry grows by one entry
    when an id is returned and by none when the call is refused. *)
Theorem subscribe_keeps_endpoints maxc m ch m' q br :
  subscribe maxc m ch = Some (m', (q, br)) →
  (∀ k c, clients m !! k = Some c → clients m' !! k = Some c) ∧
  size (clients m')
  = (size (clients m) + if bool_decide (q = (-1)%Z) then 0 else 1)%nat.
Proof.
  intros Hs. apply subscribe_spec in Hs.
  destruct Hs as [(-> & _ & -> & _)|(Hq & _ & -> & Hfree & _)].
  - rewrite bool_decide_true by done. split; [done|lia].
  - rewrite bool_decide_false by lia. simpl. split.
    + intros k c Hk. rewrite lookup_insert_ne; [done|]. congruence.
    + rewrite map_size_insert_None by done. lia.
Qed.

Lemma subscribe_keeps_endpoints_witness :
  size (clients (Mux {[ 0 := 7%positive; 1 := 5%positive ]} 1))
  = S (size (clients (Mux {[ 1 := 5%positive ]} 1))).
Proof.
  assert (subscribe 42 (Mux {[ 1 := 5%positive ]} 1) 7
          = Some (Mux {[ 0 := 7%positive; 1 := 5%positive ]} 1,
                  (0, Some 1%positive))) as Hs.
  { vm_compute. reflexivity. }
  pose proof (subscribe_keeps_endpoints _ _ _ _ _ _ Hs) as [_ Hsz].
  rewrite Hsz, bool_decide_false by (intros H; discriminate H).
  apply Nat.add_1_r.
Defined.

(** X5. An eviction removes the one id it names and nothing else: the
    channel it closes is the one that was registered under the id, every
    other id keeps its channel, the registry shrinks by one entry, and a
    second eviction of the same id panics (it closes the [nil] channel). *)
Theorem evict_frees_only_its_id m q m' c :
  evict m q = Some (m', c) →
  clients m !! q = Some c ∧
  clients m' !! q = None ∧
  (∀ k, k ≠ q → clients m' !! k = clients m !! k) ∧
  S (size (clients m')) = size (clients m) ∧
  evict m' q = None.
Proof.
  unfold evict. destruct (clients m !! q) as [c'|] eqn:Hq; [|done].
  intros [= <- <-]. simpl. rewrite lookup_delete_eq.
  split_and!; [done|done| | |done].
  - intros k Hk. by rewrite lookup_delete_ne.
  - rewrite map_size_delete_Some by (by eexists).
    assert (size (clients m) ≠ 0%nat); [|lia].
    apply map_size_non_empty_iff. intros Hm. by rewrite Hm, lookup_empty in Hq.
Qed.

Lemma evict_frees_only_its_id_witness :
  evict (Mux {[ 0 := 5%positive ]} 1) 1 = None.
Proof.
  assert (evict (Mux {[ 0 := 5%positive; 1 := 7%positive ]} 1) 1
          = Some (Mux {[ 0 := 5%positive ]} 1, 7%positive)) as He.
  { vm_compute. reflexivity. }
  pose proof (evict_frees_only_its_id _ _ _ _ He) as (_ & _ & _ & _ & Hagain).
  exact Hagain.
Defined.

(* ===================================================================== *)
(** * Further properties: the system *)
(* ===================================================================== *)

(** X6. In every state the system reaches, the registry is what the
    subscriptions and deletions of the trace leave, its ids are ids the
    search can reach, no channel is registered under two ids, every
    registered channel was made by a handler, and there are never more
    endpoints than reachable ids. *)
Theorem reachable_registry_wellformed maxc res acts s tr :
  run maxc (start_system res) acts = Some (s, tr) →
  clients (sys_mux s) = registered tr ∧
  result (sys_mux s) = res ∧
  (∀ k, is_Some (clients (sys_mux s) !! k) → 0 ≤ k ≤ id_bound maxc) ∧
  (∀ k1 k2 c, clients (sys_mux s) !! k1 = Some c →
              clients (sys_mux s) !! k2 = Some c → k1 = k2) ∧
  (∀ k c, clients (sys_mux s) !! k = Some c → c ∈ sys_made s) ∧
  Z.of_nat (size (clients (sys_mux s))) ≤ id_bound maxc + 1.
Proof.
  intros Hrun. apply run_start_inv in Hrun as Hinv.
  destruct Hinv as [Hreg Hres Hkeys Hmade Hinj _ _ _].
  split_and!; [done..|].
  assert (0 ≤ id_bound maxc) as Hb by (unfold id_bound; lia).
  pose proof (size_le_range _ _ Hb Hkeys). lia.
Qed.

Lemma reachable_registry_wellformed_witness :
  ∃ s tr,
    run 2 (start_system 1)
      [ASubscribe 10; ASubscribe 11; ASubscribe 12; AFrame [x01] [1; 0];
       AReport (BroadcastResult 1 (Some (Err "broken pipe"))); ASubscribe 13]
    = Some (s, tr) ∧
    tr = [BSubscribed 0 10; BSubscribed 1 11; BRefused 12; BSend 11 [x01];
          BRecv (BroadcastResult 1 (Some (Err "broken pipe")));
          BClose 11; BDelete 1; BSubscribed 1 13] ∧
    clients (sys_mux s) = registered tr.
Proof.
  eexists _, _. split; [reflexivity|]. split; [reflexivity|].
  apply (reachable_registry_wellformed 2 1
    [ASubscribe 10; ASubscribe 11; ASubscribe 12; AFrame [x01] [1; 0];
     AReport (BroadcastResult 1 (Some (Err "broken pipe"))); ASubscribe 13]).
  reflexivity.
Defined.

Lemma frames_sent_to_app ch tr1 tr2 :
  frames_sent_to ch (tr1 ++ tr2) = frames_sent_to ch tr1 ++ frames_sent_to ch tr2.
Proof. apply omap_app. Qed.

(** The [range] moving on keeps the order of the frames. *)
Lemma advance_order ch m made f order tr before pc evs :
  NoDup order →
  (∀ k1 k2 c, clients m !! k1 = Some c → clients m !! k2 = Some c → k1 = k2) →
  (∀ k c, clients m !! k = Some c → c ∈ made) →
  (ch ∉ made → frames_sent_to ch tr = []) →
  frames_sent_to ch tr `sublist_of` before ++ [f] →
  ((∃ k, k ∈ order ∧ clients m !! k = Some ch) →
   frames_sent_to ch tr `sublist_of` before) →
  advance m f order = (pc, evs) →
  order_inv ch (System m made pc) (tr ++ evs) (before ++ [f]).
Proof.
  intros Hnd Hinj Hmade Hfresh Hsub Hpending Hadv.
  destruct (advance_spec m f order)
    as [[Ha _]|(sk & k' & ch' & rest & -> & _ & Hk' & Ha)];
    rewrite Ha in Hadv; simplify_eq.
  - split; simpl.
    + intros Hch. rewrite frames_sent_to_app, (Hfresh Hch). done.
    + rewrite frames_sent_to_app. simpl. by rewrite app_nil_r.
  - apply NoDup_app in Hnd as (_ & _ & Hnd).
    apply NoDup_cons in Hnd as [Hk'rest _].
    unfold order_inv. simpl. rewrite frames_sent_to_app. simpl.
    destruct (decide (ch' = ch)) as [->|Hne].
    + rewrite bool_decide_true by done. split.
      * intros Hch. exfalso. apply Hch. by eapply Hmade.
      * exists before. split_and!; [done| |].
        -- apply sublist_app; [|done]. apply Hpending. exists k'.
           split; [|done]. apply elem_of_app. right. by left.
        -- intros (k & Hk & Hkch). exfalso. apply Hk'rest.
           by rewrite (Hinj k' k ch Hk' Hkch).
    + rewrite bool_decide_false by done. rewrite app_nil_r. split.
      * done.
      * exists before. split_and!; [done|done|].
        intros (k & Hk & Hkch). apply Hpending. exists k. split; [|done].
        apply elem_of_app. right. by right.
Qed.

(** Every step keeps the order of the frames. *)
Lemma step_order maxc res ch s tr arr a s' evs :
  sys_inv maxc res s tr →
  order_inv ch s tr arr →
  step maxc s a = Some (s', evs) →
  order_inv ch s' (tr ++ evs) (arr ++ arrived [a]).
Proof.
  intros Hinv [Hfresh HJ] Hstep. destruct s as [m made pc].
  destruct Hinv as [Hreg Hres Hkeys Hmade Hinj Hclosed Hcount Horder].
  destruct a as [c|f order|br|]; simpl in *.
  - (* subscribe *)
    case_bool_decide as Hc; [done|].
    destruct (subscribe maxc m c) as [[m' [q b]]|] eqn:Hs; [|done].
    simpl in Hstep. simplify_eq. rewrite app_nil_r. unfold order_inv.
    assert (frames_sent_to ch (tr ++ [if bool_decide (q < 0) then BRefused c
                                      else BSubscribed q c])
            = frames_sent_to ch tr) as ->.
    { rewrite frames_sent_to_app. case_bool_decide; simpl; by rewrite app_nil_r. }
    split; simpl.
    { intros Hch. apply Hfresh. intros Hin. apply Hch. by apply elem_of_union_r. }
    destruct pc as [|f order|f order]; [done| |];
      destruct HJ as (before & -> & Hsub & Hpending);
      exists before; (split_and!; [done|done|]);
      intros (k & Hk & Hkch);
      apply subscribe_spec in Hs;
      (destruct Hs as [(_ & _ & -> & _)|(_ & _ & -> & _ & _)];
       [apply Hpending; by exists k|]);
      simpl in Hkch;
      (destruct (decide (q = k)) as [->|Hne];
       [rewrite lookup_insert_eq in Hkch; simplify_eq;
        rewrite (Hfresh Hc); apply sublist_nil_l
       |rewrite lookup_insert_ne in Hkch by done;
        apply Hpending; by exists k]).
  - (* a frame arrives *)
    destruct pc; try done. case_bool_decide as Hnd; [|done].
    destruct (advance m f order) as [pc' evs'] eqn:Ha. simplify_eq.
    eapply advance_order; [done|done|done|done| | |done].
    + by apply sublist_inserts_r.
    + done.
  - (* a report arrives *)
    destruct pc as [|f order|]; try done.
    destruct HJ as (before & -> & Hsub & Hpending). rewrite app_nil_r.
    destruct (err br) as [e|].
    + unfold evict in Hstep. destruct (clients m !! qid br) as [c|]; [|done].
      simpl in Hstep. simplify_eq. unfold order_inv.
      assert (frames_sent_to ch (tr ++ [BRecv br; BClose c; BDelete (qid br)])
              = frames_sent_to ch tr) as ->.
      { rewrite frames_sent_to_app. simpl. by rewrite app_nil_r. }
      split; simpl; [done|]. exists before. split_and!; [done|done|].
      intros (k & Hk & [_ Hkch]%lookup_delete_Some). apply Hpending. by exists k.
    + simplify_eq. unfold order_inv.
      assert (frames_sent_to ch (tr ++ [BRecv br]) = frames_sent_to ch tr) as ->.
      { rewrite frames_sent_to_app. simpl. by rewrite app_nil_r. }
      split; simpl; [done|]. by exists before.
  - (* the range moves on *)
    destruct pc as [| |f order]; try done.
    destruct HJ as (before & -> & Hsub & Hpending). rewrite app_nil_r.
    destruct (advance m f order) as [pc' evs'] eqn:Ha. simplify_eq.
    by eapply advance_order.
Qed.

Lemma run_order maxc res ch acts : ∀ s tr arr s' evs,
  sys_inv maxc res s tr →
  order_inv ch s tr arr →
  run maxc s acts = Some (s', evs) →
  order_inv ch s' (tr ++ evs) (arr ++ arrived acts).
Proof.
  induction acts as [|a acts IH]; intros s tr arr s' evs Hinv HJ Hrun;
    simpl in Hrun.
  - simplify_eq. by rewrite !app_nil_r.
  - destruct (step maxc s a) as [[s1 evs1]|] eqn:Hst; [|done]. simpl in Hrun.
    destruct (run maxc s1 acts) as [[s2 evs2]|] eqn:Hr; [|done].
    simpl in Hrun. simplify_eq.
    change (a :: acts) with ([a] ++ acts). unfold arrived.
    rewrite omap_app, !app_assoc.
    eapply IH; [by eapply step_inv| |done].
    by eapply step_order.
Qed.

(** X7. On every channel the frames are sent in the order in which they
    arrived, none twice: the frames sent on a channel are a sublist of the
    frames that arrived on [nextFrame]. *)
Theorem frames_sent_in_order maxc res acts s tr ch :
  run maxc (start_system res) acts = Some (s, tr) →
  frames_sent_to ch tr `sublist_of` arrived acts.
Proof.
  intros Hrun.
  pose proof (run_order maxc res ch acts (start_system res) [] [] s tr
                (sys_inv_start maxc res)) as HJ.
  simpl in HJ.
  assert (order_inv ch (start_system res) [] []) as Hstart.
  { split; simpl; [done|]. apply sublist_nil_l. }
  destruct (HJ Hstart Hrun) as [_ Hend].
  destruct (sys_pc s); [done|..]; by destruct Hend as (? & _ & ? & _).
Qed.

Lemma frames_sent_in_order_witness :
  ∃ s tr,
    run 42 (start_system 1)
      [ASubscribe 10; AFrame [x01] [0]; AReport (BroadcastResult 0 None);
       ASubscribe 11; AAdvance; AFrame [x02] [1; 0];
       AReport (BroadcastResult 1 None); AAdvance]
    = Some (s, tr) ∧
    frames_sent_to 11 tr `sublist_of` [[x01]; [x02]].
Proof.
  eexists _, _. split; [reflexivity|].
  eapply (frames_sent_in_order 42 1
    [ASubscribe 10; AFrame [x01] [0]; AReport (BroadcastResult 0 None);
     ASubscribe 11; AAdvance; AFrame [x02] [1; 0];
     AReport (BroadcastResult 1 None); AAdvance]).
  reflexivity.
Defined.

(* ===================================================================== *)
(** * Further properties: the session *)
(* ===================================================================== *)

Lemma reports_cons e evs :
  reports (e :: evs)
  = match e with SReport br => [br] | _ => [] end ++ reports evs.
Proof. by destruct e. Qed.

Lemma ServeHTTP_reports_id now q br stub frames :
  Forall (λ r, qid r = q) (reports (ServeHTTP now (q, br) stub frames)).
Proof.
  unfold ServeHTTP. simpl fst. case_bool_decide; [by constructor|].
  destruct stub as [|n e].
  - change (Forall (λ r, qid r = q) (reports (stream_loop q frames))).
    rewrite stream_loop_reports. apply Forall_fmap, Forall_forall. done.
  - change (Forall (λ r, qid r = q) [BroadcastResult q (Some e)]).
    by repeat constructor.
Qed.

(** X8. A connection from its first line on. With a maximum of at least 1
    and a registry built by [subscribe] and [evict]: when the registry
    holds [maxConnections] endpoints the handler answers with the status
    Too Many Requests and nothing else (no body, no report), and the
    registry is as before; otherwise the channel is registered under the
    smallest free id, the handler starts with the status OK, and every
    report it sends carries that id. *)
Theorem serve_connection_full_or_accepted maxc res ops m ch now stub frames :
  1 ≤ maxc ≤ int_max →
  reg_run maxc (start_mux res) ops = Some m →
  ∃ m' evs,
    serve_connection maxc m ch now stub frames = Some (m', evs) ∧
    if bool_decide (size (clients m) = Z.to_nat maxc)
    then m' = m ∧ evs = [SWriteHeader StatusTooManyRequests]
    else ∃ q,
      0 ≤ q < maxc ∧
      clients m !! q = None ∧
      (∀ i, 0 ≤ i < q → is_Some (clients m !! i)) ∧
      m' = Mux (<[q := ch]> (clients m)) res ∧
      (∃ rest, evs = SWriteHeader StatusOK :: rest) ∧
      Forall (λ r, qid r = q) (reports evs).
Proof.
  intros Hmax Hrun. destruct (reg_run_start_keys _ _ _ _ Hrun) as [Hk Hres].
  rewrite id_bound_pos in Hk by done.
  pose proof (all_taken_iff_size (clients m) (maxc - 1) ltac:(lia) Hk) as Hsz.
  replace (maxc - 1 + 1) with maxc in Hsz by lia.
  unfold serve_connection.
  destruct (subscribe_total maxc m ch) as [[m' [q b]] Hs]. rewrite Hs. simpl.
  eexists _, _. split; [done|].
  apply subscribe_spec in Hs. rewrite id_bound_pos in Hs by done.
  destruct Hs as [(-> & -> & -> & Hocc)|(Hq & -> & -> & Hfree & Hocc)].
  - rewrite bool_decide_true by (by apply (proj1 Hsz)). done.
  - rewrite bool_decide_false.
    2:{ intros Hfull. pose proof (proj2 Hsz Hfull q ltac:(lia)) as Hq'.
        rewrite Hfree in Hq'. by destruct Hq'. }
    exists q. split_and!; [lia|lia|done|done|by rewrite Hres| |].
    + unfold ServeHTTP. simpl. rewrite bool_decide_false by lia. by eexists.
    + apply ServeHTTP_reports_id.
Qed.

Lemma serve_connection_full_or_accepted_witness :
  ∃ m m' evs,
    reg_run 2 (start_mux 1) [OpSubscribe 5; OpSubscribe 6] = Some m ∧
    serve_connection 2 m 7 "Mon, 02 Jan 2006 15:04:05 GMT" CopyOk
      [([xff], InTime CopyOk)] = Some (m', evs) ∧
    m' = m ∧ evs = [SWriteHeader StatusTooManyRequests].
Proof.
  assert (reg_run 2 (start_mux 1) [OpSubscribe 5; OpSubscribe 6]
          = Some (Mux {[ 0 := 5%positive; 1 := 6%positive ]} 1)) as Hrun.
  { vm_compute. reflexivity. }
  destruct (serve_connection_full_or_accepted 2 1 [OpSubscribe 5; OpSubscribe 6]
              (Mux {[ 0 := 5%positive; 1 := 6%positive ]} 1) 7
              "Mon, 02 Jan 2006 15:04:05 GMT" CopyOk [([xff], InTime CopyOk)]
              ltac:(unfold int_max; lia) Hrun) as (m' & evs & Hs & Hcase).
  rewrite bool_decide_true in Hcase by (vm_compute; reflexivity).
  destruct Hcase as [-> ->]. eexists _, _, _. split; [exact Hrun|].
  split; [exact Hs|]. split; reflexivity.
Defined.

Lemma stream_loop_failure_last q frames : ∀ i e,
  stream_loop q frames !! i = Some e →
  is_failure_report e = true →
  S i = length (stream_loop q frames).
Proof.
  induction frames as [|[buf o] frames IH]; intros i e; simpl; [done|].
  destruct o as [[|w err]|w].
  - destruct i as [|[|[|i]]]; simpl; try (by intros [= <-]).
    intros Hi He. by rewrite <- (IH i e Hi He).
  - destruct i as [|[|[|i]]]; simpl; try (by intros [= <-]); try done.
  - destruct i as [|[|[|i]]]; simpl; try (by intros [= <-]); try done.
Qed.

(** X9. Whatever happens to a session, a failure report is the last thing
    its handler does: no frame is received, nothing is written and no
    report is sent after it, so a session sends at most one failure
    report; a refused connection sends none. *)
Theorem failure_report_is_last now sub stub frames i e :
  ServeHTTP now sub stub frames !! i = Some e →
  is_failure_report e = true →
  S i = length (ServeHTTP now sub stub frames) ∧ 0 ≤ fst sub.
Proof.
  unfold ServeHTTP. case_bool_decide as Hq.
  - destruct i as [|i]; simpl; [by intros [= <-]|done].
  - intros Hi He. split; [|lia]. revert Hi He.
    do 6 (destruct i as [|i]; [simpl; by intros [= <-]|]).
    simpl. destruct stub as [|w err].
    + destruct i as [|i]; simpl; [by intros [= <-]|].
      intros Hi He. by rewrite <- (stream_loop_failure_last _ _ i e Hi He).
    + destruct i as [|[|i]]; simpl; try (by intros [= <-]); try done.
Qed.

Lemma failure_report_is_last_witness :
  8%nat = length (ServeHTTP "Mon, 02 Jan 2006 15:04:05 GMT" (3, Some 1%positive)
                    (CopyErr 4 (Err "broken pipe")) [([xff], InTime CopyOk)])
  ∧ 0 ≤ 3.
Proof.
  apply (failure_report_is_last "Mon, 02 Jan 2006 15:04:05 GMT"
           (3, Some 1%positive) (CopyErr 4 (Err "broken pipe"))
           [([xff], InTime CopyOk)] 7
           (SReport (BroadcastResult 3 (Some (Err "broken pipe")))));
    reflexivity.
Defined.

Lemma filter_not_flush_cons e evs :
  filter not_flush (e :: evs)
  = (if is_flush e then [] else [e]) ++ filter not_flush evs.
Proof. rewrite filter_cons. by destruct e. Qed.

Lemma stream_loop_v1_erase q frames :
  filter not_flush (stream_loop_v1 q frames)
  = stream_loop q (map (λ fo, (fst fo, forget_flush (snd fo))) frames).
Proof.
  induction frames as [|[buf o] frames IH]; simpl; [done|].
  destruct o as [[|w e]|w [|]]; simpl; rewrite !filter_not_flush_cons; simpl;
    [by rewrite IH|done..].
Qed.

Lemma stream_loop_v1_first q frames r :
  stream_loop_v1 q frames !! 0%nat ≠ Some (SReport r).
Proof. destruct frames as [|[buf o] frames]; simpl; done. Qed.

Lemma stream_loop_v1_flushed q frames : ∀ i r,
  stream_loop_v1 q frames !! S i = Some (SReport r) → err r = None →
  stream_loop_v1 q frames !! i = Some SFlush.
Proof.
  induction frames as [|[buf o] frames IH]; intros i r; simpl; [done|].
  destruct o as [[|w e]|w [|]].
  - destruct i as [|[|[|[|i]]]]; simpl; try done.
    + intros Hi. by apply stream_loop_v1_first in Hi.
    + apply IH.
  - destruct i as [|[|i]]; simpl; try done; try (by intros [= <-]).
  - destruct i as [|[|[|i]]]; simpl; try done; try (by intros [= <-]).
  - destruct i as [|[|i]]; simpl; try done; try (by intros [= <-]).
Qed.

(** X10. The handler of the earlier revision differs from the current one
    by its flushes only: with the flushes taken out, its trace is the trace
    of the current handler on the same frames and outcomes; and in it every
    success report comes right after a flush. *)
Theorem ServeHTTP_v1_flushes now sub stub frames :
  filter not_flush (ServeHTTP_v1 now sub stub frames)
  = ServeHTTP now sub stub (map (λ fo, (fst fo, forget_flush (snd fo))) frames)
  ∧ ∀ i r,
      ServeHTTP_v1 now sub stub frames !! S i = Some (SReport r) →
      err r = None →
      ServeHTTP_v1 now sub stub frames !! i = Some SFlush.
Proof.
  unfold ServeHTTP_v1, ServeHTTP. case_bool_decide as Hq.
  - split; [done|]. intros [|i] r; simpl; done.
  - split.
    + simpl. rewrite !filter_not_flush_cons. simpl. destruct stub as [|w e].
      * rewrite filter_not_flush_cons. simpl. by rewrite stream_loop_v1_erase.
      * by rewrite !filter_not_flush_cons.
    + intros i r. destruct stub as [|w e].
      * do 6 (destruct i as [|i]; [simpl; done|]).
        destruct i as [|i]; simpl.
        -- intros Hi. by apply stream_loop_v1_first in Hi.
        -- apply stream_loop_v1_flushed.
      * do 6 (destruct i as [|i]; [simpl; done|]).
        destruct i as [|i]; simpl; [by intros [= <-]|done].
Qed.

(* ===================================================================== *)
(** * Further properties: [stripID3Header] *)
(* ===================================================================== *)

(** The stub of the handler is a tag of declared size zero: its computed
    length is the 10 bytes of the header. *)
Lemma id3size_stub : id3size x00 x00 x00 x00 = 10.
Proof. reflexivity. Qed.

(** X11. What the server sends, [stripID3Header] takes apart again: a
    buffer made of the 10-byte stub of the handler followed by any payload
    is stripped to exactly that payload; so the body of a session, read
    back, is the bytes of its frames. *)
Theorem stripID3Header_strips_stub payload extra now q br frames :
  stripID3Header (Slice (id3_stub ++ payload) extra) None = Some payload ∧
  (0 ≤ q →
   stripID3Header
     (Slice (body_written (ServeHTTP now (q, br) CopyOk frames)) extra) None
   = Some (concat (map outcome_bytes (served frames)))).
Proof.
  assert (∀ p, stripID3Header (Slice (id3_stub ++ p) extra) None = Some p) as Hstub.
  { intros p. rewrite stripID3Header_marker; [|unfold slice_cap; simpl; lia|done].
    simpl. rewrite id3size_stub. unfold slice_from, slice_len. simpl.
    rewrite bool_decide_true by lia. done. }
  split; [apply Hstub|]. intros Hq. rewrite ServeHTTP_accepted by done.
  simpl. rewrite !body_written_cons. simpl. rewrite stream_loop_body.
  apply Hstub.
Qed.

Lemma stripID3Header_strips_stub_witness :
  stripID3Header
    (Slice (body_written
              (ServeHTTP "Mon, 02 Jan 2006 15:04:05 GMT" (0, Some 1%positive)
                 CopyOk [([xff; xfb], InTime CopyOk); ([x90], Late 0)]))
           []) None
  = Some [xff; xfb].
Proof.
  apply (proj2 (stripID3Header_strips_stub [] []
                  "Mon, 02 Jan 2006 15:04:05 GMT" 0 (Some 1%positive)
                  [([xff; xfb], InTime CopyOk); ([x90], Late 0)])).
  lia.
Defined.

(** Four lookups in a row that succeed. *)
Lemma bind_four {A} (o6 o7 o8 o9 : option byte)
    (k : byte → byte → byte → byte → option A) (out : A) :
  (b6 ← o6; b7 ← o7; b8 ← o8; b9 ← o9; k b6 b7 b8 b9) = Some out →
  ∃ b6 b7 b8 b9,
    o6 = Some b6 ∧ o7 = Some b7 ∧ o8 = Some b8 ∧ o9 = Some b9 ∧
    k b6 b7 b8 b9 = Some out.
Proof.
  destruct o6 as [b6|]; [|done]. destruct o7 as [b7|]; [|done].
  destruct o8 as [b8|]; [|done]. destruct o9 as [b9|]; [|done].
  simpl. intros Hk. by exists b6, b7, b8, b9.
Qed.

(** X12. [stripID3Header] never makes up bytes: whatever it returns is a
    suffix of the buffer it was given, so at most as long. *)
Theorem stripID3Header_returns_suffix buf err out :
  stripID3Header buf err = Some out →
  out `suffix_of` elems buf ∧ (length out ≤ slice_len buf)%nat.
Proof.
  intros Hs.
  assert (out `suffix_of` elems buf) as Hsuf.
  { destruct err as [e|].
    - change (Some [] = Some out) in Hs. simplify_eq. apply suffix_nil.
    - destruct (decide (3 ≤ slice_cap buf)%nat) as [Hcap|Hcap].
      2:{ unfold stripID3Header in Hs.
          rewrite slice_to_3, bool_decide_false in Hs by done. done. }
      destruct (decide (take 3 (elems buf ++ spare buf) = ID3)) as [Hm|Hm].
      2:{ rewrite stripID3Header_no_marker in Hs by done. by simplify_eq. }
      rewrite stripID3Header_marker in Hs by done.
      apply (bind_four _ _ _ _
               (λ b6 b7 b8 b9,
                  slice_from buf (id3size b6 b7 b8 b9) ≫= λ tl, Some (elems tl)))
        in Hs as (b6 & b7 & b8 & b9 & _ & _ & _ & _ & Hs).
      remember (id3size b6 b7 b8 b9) as n eqn:Hn. clear Hn.
      destruct (slice_from buf n) as [tl|] eqn:Hsl; [|done].
      simpl in Hs. simplify_eq. unfold slice_from in Hsl.
      case_bool_decide; [|done]. simplify_eq. simpl. apply suffix_drop. }
  split; [done|]. by apply suffix_length.
Qed.

Lemma stripID3Header_returns_suffix_witness :
  [xff; xfb] `suffix_of` [x49; x44; x33; x03; x00; x00; x00; x00; x00; x01;
                          x10; xff; xfb]
  ∧ (2 ≤ 13)%nat.
Proof.
  apply (stripID3Header_returns_suffix
           (Slice [x49; x44; x33; x03; x00; x00; x00; x00; x00; x01;
                   x10; xff; xfb] []) None [xff; xfb]).
  vm_compute. reflexivity.
Defined.

(** X13. A file of fewer than 3 bytes, read by [ioutil.ReadAll] into its
    buffer of capacity 512, is returned as it is: the first three bytes of
    the backing array are not the marker, the third being zero. *)
Theorem stripID3Header_short_file data :
  (length data < 3)%nat →
  stripID3Header (read_buffer data) None = Some data.
Proof.
  intros Hlen. apply stripID3Header_no_marker.
  - unfold slice_cap, read_buffer. simpl. rewrite length_replicate. lia.
  - unfold read_buffer. simpl.
    destruct data as [|a [|b [|c data]]]; simpl in *; try lia; done.
Qed.

Lemma stripID3Header_short_file_witness :
  stripID3Header (read_buffer [x49; x44]) None = Some [x49; x44].
Proof. apply (stripID3Header_short_file [x49; x44]). simpl. lia. Defined.

(** X14. The tag length the code computes is never negative and never
    wraps around in [int32], whatever the four size bytes: it lies between
    10 and 2^29 + 9. *)
Theorem id3size_never_wraps b6 b7 b8 b9 :
  10 ≤ id3size b6 b7 b8 b9 < 2 ^ 29 + 10 ∧
  id3size b6 b7 b8 b9
  = Z.lor (Z.lor (Z.lor (int32_of_byte b6 * 2 ^ 21) (int32_of_byte b7 * 2 ^ 14))
                 (int32_of_byte b8 * 2 ^ 7)) (int32_of_byte b9) + 10.
Proof.
  unfold id3size, shl32.
  pose proof (int32_of_byte_range b6). pose proof (int32_of_byte_range b7).
  pose proof (int32_of_byte_range b8). pose proof (int32_of_byte_range b9).
  set (v6 := int32_of_byte b6) in *. set (v7 := int32_of_byte b7) in *.
  set (v8 := int32_of_byte b8) in *. set (v9 := int32_of_byte b9) in *.
  rewrite !Z.shiftl_mul_pow2 by lia.
  rewrite (wrap_int32_id (v6 * 2 ^ 21)) by lia.
  rewrite (wrap_int32_id (v7 * 2 ^ 14)) by lia.
  rewrite (wrap_int32_id (v8 * 2 ^ 7)) by lia.
  assert (0 ≤ Z.lor (v6 * 2 ^ 21) (v7 * 2 ^ 14) < 2 ^ 29) as Hl1
    by (apply lor_below; lia).
  assert (0 ≤ Z.lor (Z.lor (v6 * 2 ^ 21) (v7 * 2 ^ 14)) (v8 * 2 ^ 7) < 2 ^ 29)
    as Hl2 by (apply lor_below; lia).
  assert (0 ≤ Z.lor (Z.lor (Z.lor (v6 * 2 ^ 21) (v7 * 2 ^ 14)) (v8 * 2 ^ 7)) v9
          < 2 ^ 29) as Hl3 by (apply lor_below; lia).
  rewrite wrap_int32_id by lia. split; [lia|done].
Qed.

(* ===================================================================== *)
(** * Further properties: decoding and pacing *)
(* ===================================================================== *)

Lemma frames_emitted_app evs1 evs2 :
  frames_emitted (evs1 ++ evs2) = frames_emitted evs1 ++ frames_emitted evs2.
Proof. apply omap_app. Qed.

Lemma sleeps_app evs1 evs2 : sleeps (evs1 ++ evs2) = sleeps evs1 ++ sleeps evs2.
Proof. apply omap_app. Qed.

Lemma sum_list_app l1 l2 : sum_list (l1 ++ l2) = sum_list l1 + sum_list l2.
Proof. induction l1 as [|x l1 IH]; simpl; [done|]. rewrite IH. lia. Qed.

Lemma pace_no_frame cumwait duration cost :
  frames_emitted (snd (pace cumwait duration cost)) = [].
Proof. unfold pace. by case_bool_decide. Qed.

Lemma decode_stream_frames acc units :
  frames_emitted (snd (decode_stream acc units)) = map (λ f, fst (fst f)) (frames_of [units]).
Proof.
  unfold frames_of. simpl. rewrite app_nil_r. revert acc.
  induction units as [|u units IH]; intros acc; simpl; [done|].
  destruct u as [| |buf d c]; simpl; [apply IH..|].
  pose proof (pace_no_frame acc d c) as Hp.
  destruct (pace acc d c) as [cw ev]. specialize (IH cw).
  destruct (decode_stream cw units) as [cw' evs]. simpl in *.
  change (PFrame buf :: ev ++ evs) with ([PFrame buf] ++ ev ++ evs).
  rewrite !frames_emitted_app, Hp, IH. done.
Qed.

Lemma decode_streams_frames acc streams :
  frames_emitted (snd (decode_streams acc streams))
  = map (λ f, fst (fst f)) (frames_of streams).
Proof.
  revert acc. induction streams as [|units streams IH]; intros acc; simpl; [done|].
  pose proof (decode_stream_frames acc units) as Hu.
  destruct (decode_stream acc units) as [cw ev]. specialize (IH cw).
  destruct (decode_streams cw streams) as [cw' evs]. simpl in *.
  rewrite frames_emitted_app, Hu, IH. unfold frames_of. simpl.
  by rewrite app_nil_r, map_app.
Qed.

(** X15. The decoding goroutine sends every decoded frame, in the order of
    the streams and of the frames in them, and nothing else: a unit that
    fails to decode or to be read is skipped and the stream goes on, the
    end of a stream leads to the next one, and whatever the pacing does it
    sends no frame. Fed by the goroutine that opens the files, it sends the
    frames of the files that can be opened, a file that cannot be opened
    giving none and stopping nothing. *)
Theorem pipeline_sends_decoded_frames Open stdin path files :
  (∀ streams,
     frames_emitted (snd (decode_goroutine streams))
     = map (λ f, fst (fst f)) (frames_of streams)) ∧
  frames_emitted (snd (decode_goroutine (open_streams Open stdin path files)))
  = if bool_decide (path = "-")
    then map (λ f, fst (fst f)) (frames_of [stdin])
    else concat (map (λ name, match Open name with
                              | Some units => map (λ f, fst (fst f)) (frames_of [units])
                              | None => []
                              end) files).
Proof.
  split; [intros streams; apply decode_streams_frames|].
  unfold decode_goroutine. rewrite decode_streams_frames.
  unfold open_streams. case_bool_decide; [done|].
  induction files as [|name files IH]; simpl; [done|].
  destruct (Open name) as [units|]; simpl; [|done].
  rewrite <- IH. unfold frames_of. simpl. by rewrite app_nil_r, map_app.
Qed.

Lemma total_slack_split frames :
  total_slack frames
  = sum_list (map (λ f, snd (fst f)) frames) - sum_list (map snd frames).
Proof.
  unfold total_slack. induction frames as [|[[buf d] c] frames IH]; simpl; [done|].
  rewrite IH. lia.
Qed.

Lemma pacing_spec_nonneg acc frames :
  0 ≤ acc →
  Forall (λ f, snd f ≤ snd (fst f)) frames →
  0 ≤ fst (pacing_spec acc frames).
Proof.
  intros Hacc Hall. revert acc Hacc.
  induction Hall as [|[[buf d] c] frames Hf _ IH]; intros acc Hacc; simpl; [done|].
  simpl in Hf. case_bool_decide.
  - specialize (IH 0 ltac:(lia)). by destruct (pacing_spec 0 frames).
  - specialize (IH (acc + (d - c)) ltac:(lia)).
    by destruct (pacing_spec (acc + (d - c)) frames).
Qed.

(** X16. While the durations stay within [int64], the time the decoding
    goroutine has spent, producing the frames and sleeping, is the playing
    time of the frames sent minus what is still accumulated; so it is never
    more than one second ahead of the playing time, and when no frame costs
    more than it lasts it is never behind either. *)
Theorem pacing_keeps_playing_time streams :
  durations_in_range 0 (frames_of streams) →
  sum_list (map snd (frames_of streams))
    + sum_list (sleeps (snd (decode_goroutine streams)))
  = sum_list (map (λ f, snd (fst f)) (frames_of streams))
    - fst (decode_goroutine streams) ∧
  fst (decode_goroutine streams) ≤ Second ∧
  (Forall (λ f, snd f ≤ snd (fst f)) (frames_of streams) →
   0 ≤ fst (decode_goroutine streams)).
Proof.
  intros Hr. unfold decode_goroutine. rewrite decode_streams_spec by done.
  destruct (pacing_spec_balance 0 (frames_of streams)
              ltac:(unfold Second; lia)) as (H1 & _ & H3).
  rewrite total_slack_split in H3. split_and!; [lia|done|].
  intros Hall. by apply pacing_spec_nonneg.
Qed.

Lemma pacing_keeps_playing_time_witness :
  fst (decode_goroutine
         [[Decoded [xff] 26000000 1000000; Decoded [xfb] 26000000 30000000]])
  ≤ Second.
Proof.
  assert (durations_in_range 0
            (frames_of [[Decoded [xff] 26000000 1000000;
                         Decoded [xfb] 26000000 30000000]])) as Hr.
  { vm_compute. repeat split; congruence. }
  exact (proj1 (proj2 (pacing_keeps_playing_time _ Hr))).
Defined.

Lemma durations_in_range_slack acc frames :
  durations_in_range acc frames →
  Forall (λ f, int_min ≤ snd (fst f) - snd f ≤ int_max) frames.
Proof.
  revert acc. induction frames as [|[[buf d] c] frames IH]; intros acc; simpl.
  - constructor.
  - intros (H1 & _ & H3). constructor; [done|]. by eapply IH.
Qed.

Lemma pace_v1_spec duration cost :
  int_min ≤ duration - cost ≤ int_max →
  frames_emitted (pace_v1 duration cost) = [] ∧
  Forall (λ d, 0 < d) (sleeps (pace_v1 duration cost)) ∧
  sum_list (sleeps (pace_v1 duration cost)) = Z.max 0 (duration - cost).
Proof.
  intros Hr. unfold pace_v1. rewrite wrap_int_id by done.
  case_bool_decide.
  - split_and!; [done|by repeat constructor|cbn; lia].
  - split_and!; [done|constructor|cbn; lia].
Qed.

Lemma frames_of_decoded buf duration cost units :
  frames_of [Decoded buf duration cost :: units]
  = (buf, duration, cost) :: frames_of [units].
Proof. unfold frames_of. simpl. by rewrite !app_nil_r. Qed.

Lemma frames_of_skipped u units :
  u = DecodeErr ∨ u = ReaderErr →
  frames_of [u :: units] = frames_of [units].
Proof. intros [-> | ->]; unfold frames_of; simpl; by rewrite !app_nil_r. Qed.

Lemma decode_stream_v1_spec units :
  Forall (λ f, int_min ≤ snd (fst f) - snd f ≤ int_max) (frames_of [units]) →
  frames_emitted (decode_stream_v1 units)
  = map (λ f, fst (fst f)) (frames_of [units]) ∧
  Forall (λ d, 0 < d) (sleeps (decode_stream_v1 units)) ∧
  sum_list (sleeps (decode_stream_v1 units))
  = sum_list (map (λ f, Z.max 0 (snd (fst f) - snd f)) (frames_of [units])).
Proof.
  induction units as [|u units IH]; [by repeat constructor|].
  destruct u as [| |buf d c].
  - rewrite (frames_of_skipped DecodeErr) by auto. exact IH.
  - rewrite (frames_of_skipped ReaderErr) by auto. exact IH.
  - rewrite frames_of_decoded. intros [Hf Hall]%Forall_cons.
    destruct (IH Hall) as (I1 & I2 & I3).
    destruct (pace_v1_spec d c Hf) as (P1 & P2 & P3).
    change (decode_stream_v1 (Decoded buf d c :: units))
      with ([PFrame buf] ++ pace_v1 d c ++ decode_stream_v1 units).
    rewrite !frames_emitted_app, !sleeps_app, !sum_list_app, P1, P3, I1, I3.
    split_and!; [done| |cbn; lia].
    apply Forall_app. split; [constructor|]. by apply Forall_app.
Qed.

Lemma sum_max_ge_slack frames :
  total_slack frames
  ≤ sum_list (map (λ f, Z.max 0 (snd (fst f) - snd f)) frames).
Proof.
  unfold total_slack. induction frames as [|f frames IH]; simpl; lia.
Qed.

(** X17. The earlier revision sends the same frames as the current one but
    paces each frame by itself: it sleeps only for positive amounts, in all
    for the sum of the positive slacks, forgetting the time lost on slow
    frames; so it never sleeps less in all than the current revision has
    slept and still has accumulated. *)
Theorem pacing_v1_forgets_lost_time streams :
  durations_in_range 0 (frames_of streams) →
  frames_emitted (decode_goroutine_v1 streams)
  = frames_emitted (snd (decode_goroutine streams)) ∧
  Forall (λ d, 0 < d) (sleeps (decode_goroutine_v1 streams)) ∧
  sum_list (sleeps (decode_goroutine_v1 streams))
  = sum_list (map (λ f, Z.max 0 (snd (fst f) - snd f)) (frames_of streams)) ∧
  sum_list (sleeps (snd (decode_goroutine streams)))
    + fst (decode_goroutine streams)
  ≤ sum_list (sleeps (decode_goroutine_v1 streams)).
Proof.
  intros Hr. pose proof (durations_in_range_slack _ _ Hr) as Hall.
  assert (frames_emitted (decode_goroutine_v1 streams)
          = map (λ f, fst (fst f)) (frames_of streams) ∧
          Forall (λ d, 0 < d) (sleeps (decode_goroutine_v1 streams)) ∧
          sum_list (sleeps (decode_goroutine_v1 streams))
          = sum_list (map (λ f, Z.max 0 (snd (fst f) - snd f)) (frames_of streams)))
    as (V1 & V2 & V3).
  { clear Hr. unfold decode_goroutine_v1.
    induction streams as [|units streams IH]; simpl; [by repeat constructor|].
    assert (frames_of (units :: streams) = frames_of [units] ++ frames_of streams)
      as Hsplit by (unfold frames_of; simpl; by rewrite app_nil_r).
    rewrite Hsplit in *. apply Forall_app in Hall as [Hu Hs].
    destruct (decode_stream_v1_spec units Hu) as (U1 & U2 & U3).
    destruct (IH Hs) as (I1 & I2 & I3).
    rewrite frames_emitted_app, sleeps_app, sum_list_app, !map_app, sum_list_app.
    rewrite U1, U3, I1, I3. split_and!; [done| |done].
    by apply Forall_app. }
  split_and!; [|done|done|].
  - unfold decode_goroutine. by rewrite decode_streams_frames.
  - unfold decode_goroutine. rewrite decode_streams_spec by done.
    destruct (pacing_spec_balance 0 (frames_of streams)
                ltac:(unfold Second; lia)) as (_ & _ & H3).
    rewrite V3. pose proof (sum_max_ge_slack (frames_of streams)). lia.
Qed.

Lemma pacing_v1_forgets_lost_time_witness :
  sum_list (sleeps (decode_goroutine_v1
                      [[Decoded [xff] 26000000 1000000;
                        Decoded [xfb] 26000000 30000000]]))
  = 25000000.
Proof.
  assert (durations_in_range 0
            (frames_of [[Decoded [xff] 26000000 1000000;
                         Decoded [xfb] 26000000 30000000]])) as Hr.
  { vm_compute. repeat split; congruence. }
  rewrite (proj1 (proj2 (proj2 (pacing_v1_forgets_lost_time _ Hr)))).
  reflexivity.
Defined.

(* ===================================================================== *)
(** * Further properties: discovery *)
(* ===================================================================== *)

Lemma list_of_ToLower s :
  String.list_ascii_of_string (ToLower s)
  = lower_ascii <$> String.list_ascii_of_string s.
Proof. induction s as [|c s IH]; simpl; [done|]. by rewrite IH. Qed.

Ltac ascii_cases c :=
  destruct c as [[] [] [] [] [] [] [] []]; vm_compute;
  repeat split; intros;
  repeat match goal with H : _ ∨ _ |- _ => destruct H end;
  first [ discriminate | reflexivity | left; reflexivity | right; reflexivity ].

Lemma lower_ascii_dot c : lower_ascii c = "."%char ↔ c = "."%char.
Proof. ascii_cases c. Qed.

Lemma lower_ascii_3 c : lower_ascii c = "3"%char ↔ c = "3"%char.
Proof. ascii_cases c. Qed.

Lemma lower_ascii_m c : lower_ascii c = "m"%char ↔ c = "m"%char ∨ c = "M"%char.
Proof. ascii_cases c. Qed.

Lemma lower_ascii_p c : lower_ascii c = "p"%char ↔ c = "p"%char ∨ c = "P"%char.
Proof. ascii_cases c. Qed.

(** X18. The test of the scan accepts a name exactly when its last four
    characters are a dot, an [m] or [M], a [p] or [P] and a [3]: the
    extension is matched whatever the case of its letters, and a name that
    is only the extension is accepted too. *)
Theorem mp3_suffix_any_case name :
  HasSuffix (ToLower name) ".mp3" = true ↔
  ∃ pre c2 c3,
    String.list_ascii_of_string name = pre ++ ["."%char; c2; c3; "3"%char] ∧
    (c2 = "m"%char ∨ c2 = "M"%char) ∧ (c3 = "p"%char ∨ c3 = "P"%char).
Proof.
  unfold HasSuffix. rewrite bool_decide_eq_true, list_of_ToLower.
  change (String.list_ascii_of_string ".mp3")
    with ["."%char; "m"%char; "p"%char; "3"%char].
  split.
  - intros [k Hk]. apply fmap_app_inv in Hk as (pre & l2 & _ & Hl2 & Hname).
    destruct l2 as [|c1 [|c2 [|c3 [|c4 [|]]]]]; try done.
    injection Hl2 as H1 H2 H3 H4. symmetry in H1, H2, H3, H4.
    apply lower_ascii_dot in H1 as ->. apply lower_ascii_3 in H4 as ->.
    apply lower_ascii_m in H2. apply lower_ascii_p in H3.
    by exists pre, c2, c3.
  - intros (pre & c2 & c3 & -> & H2 & H3).
    apply lower_ascii_m in H2. apply lower_ascii_p in H3.
    exists (lower_ascii <$> pre). rewrite fmap_app. simpl.
    by rewrite H2, H3.
Qed.

Section Discovery_v1.
Variable Join : string → string → string.

Lemma walk_scan_v1 n : ∀ path files,
  ∃ l e,
    walk Join scan_walkFn_v1 path n files = (files ++ l, e) ∧
    l `prefix_of` mp3_files Join path n ∧
    (e = None ↔ error_free n = true) ∧
    (e = None → l = mp3_files Join path n).
Proof.
  induction n as [name regular|name readErr entries IH|name err]
    using fsnode_tree_ind; intros path files; simpl.
  - destruct regular; simpl.
    + destruct (HasSuffix (ToLower name) ".mp3"); simpl.
      * by exists [path], None.
      * exists [], None. by rewrite app_nil_r.
    + exists [], None. by rewrite app_nil_r.
  - destruct readErr as [err|]; simpl.
    { exists [], (Some err). rewrite app_nil_r. split_and!; done. }
    revert files. induction IH as [|e es He _ IHes]; intros files.
    + exists [], None. by rewrite app_nil_r.
    + destruct (He (Join path (fs_name e)) files)
        as (l1 & e1 & Heq & Hpre & Hiff & Hfull).
      rewrite Heq. destruct e1 as [err|].
      * exists l1, (Some err). split_and!; [done| | |done].
        -- by apply prefix_app_r.
        -- split; [done|]. intros [Hf _]%andb_prop.
           by apply Hiff in Hf.
      * rewrite (Hfull eq_refl) in *.
        destruct (IHes (files ++ mp3_files Join (Join path (fs_name e)) e))
          as (l2 & e2 & Heq2 & Hpre2 & Hiff2 & Hfull2).
        rewrite Heq2.
        exists (mp3_files Join (Join path (fs_name e)) e ++ l2), e2.
        rewrite (proj1 Hiff eq_refl). simpl.
        split_and!; [by rewrite app_assoc| |done|].
        -- by apply prefix_app.
        -- intros He2. by rewrite (Hfull2 He2).
  - exists [], (Some err). rewrite app_nil_r. split_and!; done.
Qed.

(** X19. The scan of the earlier revision hands every error to the walk,
    which ends there: what it sends is an initial part of what the scan of
    the current revision sends, the walk returns no error exactly when no
    name of the tree fails to be read, and then the two scans send the same
    files. *)
Theorem scan_v1_stops_at_first_error root tree :
  fst (scan_files_v1 Join root tree) `prefix_of` scan_files Join root tree ∧
  (snd (scan_files_v1 Join root tree) = None ↔ error_free tree = true) ∧
  (error_free tree = true →
   fst (scan_files_v1 Join root tree) = scan_files Join root tree).
Proof.
  unfold scan_files_v1. rewrite scan_files_spec.
  destruct (walk_scan_v1 tree root []) as (l & e & -> & Hpre & Hiff & Hfull).
  simpl. split_and!; [done|done|]. intros Hfree. by apply Hfull, Hiff.
Qed.
End Discovery_v1.

Lemma shuffle_loop_early files : ∀ timer rnd shuffled sent shuffled' sent',
  shuffle_loop files timer rnd shuffled sent = Some (shuffled', sent') →
  ∃ early, sent' = sent ++ early ∧ early `sublist_of` files ∧
    (Forall (λ b, b = false) timer → early = []) ∧
    ((length files ≤ length timer)%nat →
     Forall (λ b, b = true) (take (length files) timer) →
     early = files ∧ shuffled' = shuffled).
Proof.
  induction files as [|f files IH];
    intros timer rnd shuffled sent shuffled' sent' Hrun; simpl in Hrun.
  - simplify_eq. exists []. rewrite app_nil_r. split_and!; done.
  - destruct timer as [|b timer]; simpl in Hrun.
    + assert (∃ sh rn, shuffle_loop files [] rn sh sent = Some (shuffled', sent'))
        as (sh & rn & Hrun').
      { destruct shuffled as [|x shuffled]; [by eexists _, _|].
        destruct ((x :: shuffled) !! _); [by eexists _, _|done]. }
      apply IH in Hrun' as (early & -> & Hsub & Hnone & _).
      exists early. split_and!; [done|by constructor|done|].
      simpl. lia.
    + destruct b.
      * apply IH in Hrun as (early & -> & Hsub & Hnone & Hall).
        exists (f :: early). rewrite <- app_assoc. simpl.
        split_and!; [done|by constructor| |].
        -- by intros [? _]%Forall_cons.
        -- simpl. intros Hlen [_ Ht]%Forall_cons.
           destruct (Hall ltac:(lia) Ht) as [-> ->]. done.
      * assert (∃ sh rn,
                  shuffle_loop files timer rn sh sent = Some (shuffled', sent'))
          as (sh & rn & Hrun').
        { destruct shuffled as [|x shuffled]; [by eexists _, _|].
          destruct ((x :: shuffled) !! _); [by eexists _, _|done]. }
        apply IH in Hrun' as (early & -> & Hsub & Hnone & _).
        exists early. split_and!; [done|by constructor| |].
        -- intros [_ ?]%Forall_cons. by apply Hnone.
        -- simpl. by intros _ [? _]%Forall_cons.
Qed.

(** X20. The shuffling loop never fails, and the files it sends on before
    the scan has ended are sent in the order of the scan. When the timer
    has fired at every file, all of them are sent at once, in the order of
    the scan and with nothing shuffled; when it has never fired, none is
    sent before the scan ends. *)
Theorem shuffle_sends_early_in_scan_order files timer rnd :
  ∃ shuffled sent,
    shuffle_loop files timer rnd [] [] = Some (shuffled, sent) ∧
    sent `sublist_of` files ∧
    (Forall (λ b, b = false) timer → sent = []) ∧
    ((length files ≤ length timer)%nat →
     Forall (λ b, b = true) (take (length files) timer) →
     sent = files ∧ shuffled = []).
Proof.
  destruct (shuffle_loop_perm files timer rnd [] [])
    as (shuffled & sent & Hrun & _).
  exists shuffled, sent. split; [done|].
  apply shuffle_loop_early in Hrun as (early & -> & Hsub & Hnone & Hall).
  done.
Qed.

(* ===================================================================== *)
(** * Further properties: the arguments of main *)
(* ===================================================================== *)

(** X21. [main] prints the usage and exits exactly when there are two or
    more arguments and the second is not [-debug]. Otherwise debugging is
    switched on exactly when there are two arguments, and the path is the
    first argument when there are one or two; when more arguments follow
    [-debug], the first argument is ignored: the path stays [/] and
    debugging stays off. *)
Theorem main_args_cases args :
  (main_args args = None ↔
   (1 < length args)%nat ∧ args !! 1%nat ≠ Some "-debug") ∧
  (∀ path dbg, main_args args = Some (path, dbg) →
     (dbg = true ↔ length args = 2%nat) ∧
     (args = [] → path = "/") ∧
     ((1 ≤ length args ≤ 2)%nat → args !! 0%nat = Some path) ∧
     ((2 < length args)%nat → path = "/")).
Proof.
  unfold main_args.
  destruct args as [|a0 [|a1 [|a2 rest]]]; simpl.
  - split; [split; [done|lia]|]. intros path dbg [= <- <-].
    split_and!; [done|done|lia|done].
  - split; [split; [done|lia]|]. intros path dbg [= <- <-].
    split_and!; [done|done|done|lia].
  - case_bool_decide as Hd; simpl.
    + split; [split; [done|]; intros [_ ?]; done|].
      intros path dbg [= <- <-]. split_and!; [done|done|done|lia].
    + split; [split; [|done]; intros _; split; [lia|done]|]. done.
  - case_bool_decide as Hd; simpl.
    + split; [split; [done|]; intros [_ ?]; done|].
      intros path dbg [= <- <-]. split_and!; [split; [done|lia]|done|lia|done].
    + split; [split; [|done]; intros _; split; [lia|done]|]. done.
Qed.
